(** * Closure-table maintenance of [closuretree/models.py]

    A shallow embedding of the tree engine of django-closuretree: the
    closure table with its unique key, link creation, link deletion, the
    reparent update, the full rebuild, the membership query, the change
    tracker hidden in [__setattr__] and [prepopulate]; then the tree
    queries [get_ancestors], [get_descendants], [get_children] and
    [get_root], and the signal hooks as [save] runs them.

    Conventions of the embedding.
    - Primary keys are Python integers, hence [Z]; [if parent_id:] is
      Python truthiness, so both [None] and [0] are falsy.
    - The two tables are lists of rows in storage order.  The closure table
      carries the automatic primary key Django adds to every model
      ([closure_pk]) and the unique key [(parent, child)] declared by
      [unique_together].  Foreign-key and [CHECK] constraints of the
      backend are not modelled.
    - Code that can raise returns a [result]; the database is threaded
      through explicitly. *)

From stdpp Require Import base numbers list strings gmap sorting.

Set Warnings "-clear-no-such-hyp".

Local Open Scope Z_scope.

(** ** Exceptions and the error monad *)

Inductive exn : Set :=
  | ObjectDoesNotExist
  | IntegrityError
  | AssertionError
  | AttributeError
  | ValueError
  | NameError.

Inductive result (A : Type) : Type :=
  | Ok (a : A)
  | Raise (e : exn).
Arguments Ok {A} a.
Arguments Raise {A} e.

Global Instance result_ret : MRet result := λ A a, Ok a.
Global Instance result_bind : MBind result := λ A B f m,
  match m with
  | Ok a => f a
  | Raise e => Raise e
  end.

(** [for item in l: body(item)] over a threaded state. *)
Fixpoint for_each {A S : Type} (body : A → S → result S) (l : list A) (s : S)
    : result S :=
  match l with
  | [] => Ok s
  | x :: l' => s' ← body x s; for_each body l' s'
  end.

(** ** Data model *)

(** A row of the node table, which is also the field values of a model
    instance loaded from it. *)
Record Node : Set := {
  pk : Z;
  parent_id : option Z;
  level : Z;
}.

(** A row of the [<Model>Closure] table built by [create_closure_model]. *)
Record Closure : Set := {
  closure_pk : Z;
  parent : Z;
  child : Z;
  depth : Z;
}.

Record DB : Set := {
  nodes : list Node;
  closure : list Closure;
  closure_seq : Z;      (* next value of the closure table's AutoField *)
}.

(** An instance in memory: its field values and the attribute
    [_closure_old_parent], absent ([None]) or holding the captured parent
    object, itself possibly [None]. *)
Record Instance : Set := {
  fields :> Node;
  _closure_old_parent : option (option Node);
}.

Global Instance Node_eq_dec : EqDecision Node.
Proof. solve_decision. Defined.
Global Instance Closure_eq_dec : EqDecision Closure.
Proof. solve_decision. Defined.

(** Python truthiness of an optional integer key. *)
Definition truthy (v : option Z) : bool :=
  match v with
  | Some z => negb (z =? 0)
  | None => false
  end.

(** ** The closure table as the SQL layer sees it *)

(** A row produced by a [SELECT]: the columns [(depth, child_id, parent_id)]
    in the order of the [INSERT]'s column list. *)
Definition select_row : Set := Z * Z * Z.

Definition sel_depth (t : select_row) : Z := t.1.1.
Definition sel_child (t : select_row) : Z := t.1.2.
Definition sel_parent (t : select_row) : Z := t.2.

(** The triple held by a stored row, without its automatic key. *)
Definition triple (r : Closure) : select_row := (depth r, child r, parent r).

Record InsertStmt : Set := {
  insert_operator : string;
  on_conflict : string;
  selects_union : list select_row;
}.

(** The unique key [(parent, child)] is already used in the table. *)
Definition key_taken (tbl : list Closure) (t : select_row) : Prop :=
  Exists (λ r, parent r = sel_parent t ∧ child r = sel_child t) tbl.

Global Instance key_taken_dec tbl t : Decision (key_taken tbl t).
Proof. unfold key_taken. apply _. Defined.

Definition new_row (seq : Z) (t : select_row) : Closure :=
  {| closure_pk := seq; parent := sel_parent t; child := sel_child t;
     depth := sel_depth t |}.

(** Row-by-row insertion.  With [ignore] a row whose key is taken is
    skipped; without it the statement fails as a whole.  Stored rows are
    numbered from the sequence in the order of the statement; a skipped
    row takes no number. *)
Fixpoint insert_rows (ignore : bool) (ts : list select_row)
    (tbl : list Closure) (seq : Z) : result (list Closure * Z) :=
  match ts with
  | [] => Ok (tbl, seq)
  | t :: ts' =>
      if decide (key_taken tbl t) then
        if ignore then insert_rows ignore ts' tbl seq
        else Raise IntegrityError
      else insert_rows ignore ts' (tbl ++ [new_row seq t]) (seq + 1)
  end.

Definition ignores_conflicts (stmt : InsertStmt) : bool :=
  bool_decide (insert_operator stmt = "INSERT OR IGNORE"
               ∨ insert_operator stmt = "INSERT IGNORE"
               ∨ on_conflict stmt = "ON CONFLICT DO NOTHING").

Definition cursor_execute (stmt : InsertStmt) (db : DB) : result DB :=
  '(tbl, seq) ← insert_rows (ignores_conflicts stmt) (selects_union stmt)
                   (closure db) (closure_seq db);
  Ok {| nodes := nodes db; closure := tbl; closure_seq := seq |}.

(** ** Link creation and deletion *)

Definition _closure_parent_pk (self : Node) : option Z := parent_id self.

(** The two [SELECT]s of [_closure_createlink]: the self-link, and, behind
    [if parent_id:], the rows of the parent shifted by one. *)
Definition createlink_selects (tbl : list Closure) (self : Node)
    : list (list select_row) :=
  let pk := pk self in
  let parent_id := _closure_parent_pk self in
  let selects := [[(0, pk, pk)]] in
  if truthy parent_id then
    selects ++
    [(λ r, (depth r + 1, pk, parent r))
       <$> filter (λ r, Some (child r) = parent_id) tbl]
  else selects.

(** [' UNION '.join(selects)]: the rows of all selects, duplicates removed. *)
Definition union (selects : list (list select_row)) : list select_row :=
  remove_dups (concat selects).

Definition createlink_statement (vendor : string) (tbl : list Closure)
    (self : Node) : InsertStmt :=
  let selects := createlink_selects tbl self in
  let '(insert_operator, on_conflict_clause) :=
    if decide (vendor = "sqlite") then ("INSERT OR IGNORE", "")
    else if decide (vendor = "mysql") then ("INSERT IGNORE", "")
    else if decide (vendor = "postgresql") then
      ("INSERT", "ON CONFLICT DO NOTHING")
    else ("INSERT", "") in
  {| insert_operator := insert_operator;
     on_conflict := on_conflict_clause;
     selects_union := union selects |}.

Definition _closure_createlink (vendor : string) (self : Node) (db : DB)
    : result DB :=
  cursor_execute (createlink_statement vendor (closure db) self) db.

Definition _closure_deletelink (self : Node) (db : DB) : DB :=
  {| nodes := nodes db;
     closure := filter (λ r, child r ≠ pk self) (closure db);
     closure_seq := closure_seq db |}.

(** ** Membership query *)

(** [filter(parent=other, child=self).exclude(pk=self.pk).exists()] on the
    closure model: [pk] there is the closure row's own key. *)
Definition is_descendant_of (db : DB) (self other : Node)
    (include_self : bool) : bool :=
  if decide (pk other = pk self) then include_self
  else bool_decide
         (Exists (λ r, parent r = pk other ∧ child r = pk self
                       ∧ closure_pk r ≠ pk self) (closure db)).

Definition is_ancestor_of (db : DB) (self other : Node)
    (include_self : bool) : bool :=
  is_descendant_of db other self include_self.

(** ** Resolving the parent object *)

(** [objects.get(pk=id)] on the node table, whose primary key is [pk]. *)
Definition get_node (db : DB) (id : Z) : result Node :=
  match filter (λ n, pk n = id) (nodes db) with
  | n :: _ => Ok n
  | [] => Raise ObjectDoesNotExist
  end.

(** [getattr(self, self._closure_parent_attr)] for a foreign key: [None]
    when the column is null, the referenced object otherwise, and
    [ObjectDoesNotExist] when the reference dangles.  The descriptor's
    object cache is not modelled: the object is read from the table. *)
Definition getattr_parent (db : DB) (self : Node) : result (option Node) :=
  match parent_id self with
  | None => Ok None
  | Some p => n ← get_node db p; Ok (Some n)
  end.

Definition _closure_parent (db : DB) (self : Node) : result (option Node) :=
  match getattr_parent db self with
  | Raise ObjectDoesNotExist => Ok None
  | r => r
  end.

(** ** Descendant queries *)

Definition key_le {A : Type} (key : A → Z) : relation A :=
  λ a b, key a ≤ key b.

Global Instance key_le_dec {A : Type} (key : A → Z) : RelDecision (key_le key).
Proof. intros a b. unfold key_le. apply _. Defined.

(** [ORDER BY key]: the order among rows with equal keys is the one the
    merge sort happens to give; SQL leaves it open. *)
Definition order_by {A : Type} (key : A → Z) (l : list A) : list A :=
  merge_sort (key_le key) l.

(** The optional [depth__lte] condition. *)
Definition depth_ok (depth_lte : option Z) (r : Closure) : Prop :=
  match depth_lte with
  | Some d => depth r ≤ d
  | None => True
  end.

Global Instance depth_ok_dec depth_lte r : Decision (depth_ok depth_lte r).
Proof. destruct depth_lte; simpl; apply _. Defined.

(** The join behind [get_descendants]: a node once for every closure row
    that names it as child and [self] as parent, before any ordering. *)
Definition joined_rows (tbl : list Closure) (self : Node)
    (depth_lte : option Z) (n : Node) : list (Node * Closure) :=
  r ← tbl;
  if decide (child r = pk n ∧ parent r = pk self ∧ depth_ok depth_lte r)
  then [(n, r)] else [].

Definition descendants_qs (db : DB) (self : Node) (include_self : bool)
    (depth_lte : option Z) : list (Node * Closure) :=
  let descendants := n ← nodes db; joined_rows (closure db) self depth_lte n in
  if include_self then descendants
  else filter (λ nr, pk nr.1 ≠ pk self) descendants.

Definition get_descendants (db : DB) (self : Node) (include_self : bool)
    (depth_lte : option Z) : list Node :=
  (order_by (λ nr, depth nr.2) (descendants_qs db self include_self depth_lte)).*1.

Definition is_root_node (self : Node) : bool :=
  bool_decide (_closure_parent_pk self = None).

(** ** Ancestor queries *)

(** The join behind [get_ancestors]: a node once for every closure row
    that names it as parent and [self] as child. *)
Definition joined_parents (tbl : list Closure) (self : Node)
    (depth_lte : option Z) (n : Node) : list (Node * Closure) :=
  r ← tbl;
  if decide (parent r = pk n ∧ child r = pk self ∧ depth_ok depth_lte r)
  then [(n, r)] else [].

Definition ancestors_qs (db : DB) (self : Node) (include_self : bool)
    (depth_lte : option Z) : list (Node * Closure) :=
  let ancestors := n ← nodes db; joined_parents (closure db) self depth_lte n in
  if include_self then ancestors
  else filter (λ nr, pk nr.1 ≠ pk self) ancestors.

(** For a root the answer is taken from the node table alone, whatever
    [depth] says. *)
Definition get_ancestors (db : DB) (self : Node) (include_self : bool)
    (depth_lte : option Z) : list Node :=
  if is_root_node self then
    if negb include_self then []
    else filter (λ n, pk n = pk self) (nodes db)
  else
    (order_by (λ nr, level nr.1)
       (ancestors_qs db self include_self depth_lte)).*1.

(** [get_children]: the list left by [prepopulate] when the instance has
    one, the descendants one step down otherwise. *)
Definition get_children (db : DB) (self : Node)
    (_cached_children : option (list Node)) : list Node :=
  match _cached_children with
  | Some children => children
  | None => get_descendants db self false (Some 1)
  end.

(** [qs[0]] on an empty queryset. *)
Inductive index_error : Set := IndexError.

(** [get_root]: past the root test [get_ancestors()] is the join, which
    [order_by("-..__depth")] orders anew, deepest row first. *)
Definition get_root (db : DB) (self : Node) : Node + index_error :=
  if is_root_node self then inl self
  else
    match order_by (λ nr, - depth nr.2) (ancestors_qs db self false None) with
    | nr :: _ => inl nr.1
    | [] => inr IndexError
    end.

Definition is_child_node (self : Node) : bool := negb (is_root_node self).

(** ** Reparent update and full rebuild *)

(** The name [F] of line 343 is bound nowhere in [models.py]: it is not
    among the imports and no statement of the module defines it.  Looking
    it up raises [NameError]. *)
Definition F (name : string) : result (Node → Z) := Raise NameError.

(** [qs.update(level=expr)]: one [UPDATE] that gives the rows whose key is
    in the queryset the value of the expression. *)
Definition update_level (ids : list Z) (expr : Node → Z) (db : DB) : DB :=
  {| nodes :=
       (λ n, if decide (pk n ∈ ids)
             then {| pk := pk n; parent_id := parent_id n; level := expr n |}
             else n) <$> nodes db;
     closure := closure db;
     closure_seq := closure_seq db |}.

(** [filter(child_id__in=ids).delete()] on the closure table. *)
Definition delete_links (ids : list Z) (db : DB) : DB :=
  {| nodes := nodes db;
     closure := filter (λ r, child r ∉ ids) (closure db);
     closure_seq := closure_seq db |}.

Definition _closure_change_check (self : Instance) : bool :=
  bool_decide (is_Some (_closure_old_parent self)).

Definition level_or_0 (p : option Node) : Z := from_option level 0 p.

(** The two querysets of [_closure_update_links] are lazy: each is
    evaluated against the database at the moment it is used. *)
Definition subtree_with_self (self : Node) (db : DB) : list Node :=
  get_descendants db self true None.

Definition subtree_without_self (self : Node) (db : DB) : list Node :=
  (order_by (λ nr, level nr.1) (descendants_qs db self false None)).*1.

(** The argument of [update] is evaluated before the call: the lookup of
    [F] fails there, before any row is touched. *)
Definition _closure_update_links (vendor : string) (self : Instance)
    (db : DB) : result DB :=
  new_parent ← _closure_parent db self;
  old_parent ← match _closure_old_parent self with
               | Some o => Ok o
               | None => Raise AttributeError
               end;
  let cached_subtree := fields self :: subtree_without_self self db in
  let new_level := level_or_0 new_parent in
  let old_level := level_or_0 old_parent in
  let leveldiff := new_level - old_level in
  column ← F "level";
  let db := update_level (pk <$> subtree_without_self self db)
              (λ n, column n + leveldiff) db in
  let db := delete_links (pk <$> subtree_with_self self db) db in
  for_each (_closure_createlink vendor) cached_subtree db.

Definition rebuildtable (vendor : string) (db : DB) : result DB :=
  let db0 := {| nodes := nodes db; closure := [];
                closure_seq := closure_seq db |} in
  for_each (_closure_createlink vendor) (order_by level (nodes db)) db0.

(** ** Lifecycle hooks *)

Definition set_level (l : Z) (instance : Instance) : Instance :=
  {| fields := {| pk := pk instance; parent_id := parent_id instance;
                  level := l |};
     _closure_old_parent := _closure_old_parent instance |}.

(** [pre_save]: here the parent attribute is read directly, outside
    [_closure_parent]. *)
Definition closure_model_set_level (db : DB) (instance : Instance)
    : result Instance :=
  if truthy (_closure_parent_pk instance) then
    parent ← getattr_parent db instance;
    match parent with
    | Some p => Ok (set_level (level p + 1) instance)
    | None => Raise AttributeError
    end
  else Ok (set_level 0 instance).

Definition delattr_old_parent (instance : Instance) : Instance :=
  {| fields := fields instance; _closure_old_parent := None |}.

(** [post_save] *)
Definition closure_model_save (vendor : string) (instance : Instance)
    (created : bool) (db : DB) : result (Instance * DB) :=
  if _closure_change_check instance then
    db' ← _closure_update_links vendor instance db;
    Ok (delattr_old_parent instance, db')
  else if created then
    db' ← _closure_createlink vendor instance db;
    Ok (instance, db')
  else Ok (instance, db).

(** [pre_delete] *)
Definition closure_model_delete (instance : Instance) (db : DB) : DB :=
  _closure_deletelink instance db.

(** The row with the key of [n] becomes [n]. *)
Definition replace_row (n : Node) (T : list Node) : list Node :=
  (λ m, if decide (pk m = pk n) then n else m) <$> T.

(** The write of [Model.save()]: an [UPDATE] when the key is in the table,
    an [INSERT] otherwise; the flag is [created]. *)
Definition write_row (n : Node) (db : DB) : DB * bool :=
  if decide (pk n ∈ pk <$> nodes db) then
    ({| nodes := replace_row n (nodes db);
        closure := closure db; closure_seq := closure_seq db |}, false)
  else
    ({| nodes := nodes db ++ [n];
        closure := closure db; closure_seq := closure_seq db |}, true).

(** The host's [Model.save()], as far as the hooks can tell: [pre_save],
    then the write, then [post_save] with the matching [created] flag. *)
Definition save (vendor : string) (instance : Instance) (db : DB)
    : result (Instance * DB) :=
  instance ← closure_model_set_level db instance;
  let '(db, created) := write_row (fields instance) db in
  closure_model_save vendor instance created db.

(** ** The change tracker inside [__setattr__] *)

Module Tracker.

(** Attribute values: [None], an integer, or a model instance seen through
    its key (absent while unsaved) and its level. *)
Inductive value : Set :=
  | VNone
  | VInt (z : Z)
  | VObj (o_pk : option Z) (o_level : Z).

Global Instance value_eq_dec : EqDecision value.
Proof. solve_decision. Defined.

(** The optional [ClosureMeta] of the model class, and what the host
    offers: whether instances have [get_deferred_fields] (Django >= 1.8)
    and the column names of the model. *)
Record ClosureMeta : Set := {
  parent_attr : option string;
  sentinel_attr : option string;
  has_get_deferred_fields : bool;
  concrete_fields : list string;
}.

(** An instance is its [__dict__]. *)
Abbreviation obj := (gmap string value).

Definition _closure_parent_attr (meta : ClosureMeta) : string :=
  default "parent" (parent_attr meta).

Definition _closure_sentinel_attr (meta : ClosureMeta) : string :=
  default (_closure_parent_attr meta) (sentinel_attr meta).

Definition startswith (s p : string) : bool := String.prefix p s.
Definition endswith (s p : string) : bool :=
  String.prefix (String.rev p) (String.rev s).

Definition hasattr (self : obj) (name : string) : bool :=
  bool_decide (is_Some (self !! name)).

(** The host's [get_deferred_fields]: the columns not loaded into
    [__dict__]. *)
Definition get_deferred_fields (meta : ClosureMeta) (self : obj)
    : list string :=
  filter (λ f, self !! f = None) (concrete_fields meta).

Definition _closure_change_check (self : obj) : bool :=
  hasattr self "_closure_old_parent".

Definition py_bool (v : value) : bool :=
  match v with
  | VNone => false
  | VInt z => negb (z =? 0)
  | VObj _ _ => true
  end.

(** [value.pk] *)
Definition value_pk (v : value) : result value :=
  match v with
  | VObj o_pk _ => Ok (from_option VInt VNone o_pk)
  | _ => Raise AttributeError
  end.

(** [_closure_parent_pk]: the [_id] attribute when the instance has one,
    the key of the parent object otherwise. *)
Definition _closure_parent_pk (meta : ClosureMeta) (self : obj)
    : result value :=
  match self !! (_closure_parent_attr meta +:+ "_id") with
  | Some v => Ok v
  | None =>
      match self !! _closure_parent_attr meta with
      | Some parent => if py_bool parent then value_pk parent else Ok VNone
      | None => Raise AttributeError
      end
  end.

(** [self._closure_parent]: the parent attribute read through the foreign
    key of the instance, a dangling reference giving [None]. *)
Definition _closure_parent (meta : ClosureMeta) (db : DB) (self : obj)
    : result value :=
  match self !! (_closure_parent_attr meta +:+ "_id") with
  | Some VNone => Ok VNone
  | Some (VInt p) =>
      match get_node db p with
      | Ok n => Ok (VObj (Some (pk n)) (level n))
      | Raise ObjectDoesNotExist => Ok VNone
      | Raise e => Raise e
      end
  | _ => Raise AttributeError
  end.

Definition _closure_change_init (meta : ClosureMeta) (db : DB) (self : obj)
    : result obj :=
  old ← _closure_parent meta db self;
  Ok (<["_closure_old_parent" := old]> self).

Definition id_field_name (name : string) : string :=
  if endswith name "_id" then name else name +:+ "_id".

(** "It's already been set", in its two Django flavours. *)
Definition already_set (meta : ClosureMeta) (self : obj) (name : string)
    : bool :=
  (has_get_deferred_fields meta
   && negb (bool_decide (id_field_name name ∈ get_deferred_fields meta self))
   && hasattr self (id_field_name name))
  || (negb (has_get_deferred_fields meta)
      && hasattr self (id_field_name name)).

(** [obj_id]: the key the assignment resolves to. *)
Definition assigned_id (name : string) (v : value) : result value :=
  if endswith name "_id" then Ok v
  else if py_bool v then value_pk v
  else Ok VNone.

(** The body of [__setattr__] before the call to [super]. *)
Definition capture_on_change (meta : ClosureMeta) (db : DB) (self : obj)
    (name : string) (v : value) : result obj :=
  if startswith name (_closure_sentinel_attr meta)
     && already_set meta self name
     && negb (_closure_change_check self)
  then
    obj_id ← assigned_id name v;
    match self !! id_field_name name with
    | Some current =>
        if decide (current ≠ obj_id) then _closure_change_init meta db self
        else Ok self
    | None => Raise AttributeError
    end
  else Ok self.

(** Assignment to a plain data attribute. *)
Definition setattr_data (meta : ClosureMeta) (db : DB) (self : obj)
    (name : string) (v : value) : result obj :=
  self ← capture_on_change meta db self name v;
  Ok (<[name := v]> self).

(** The key the foreign-key descriptor stores for an assigned object; it
    refuses what is neither [None] nor an instance. *)
Definition related_key (v : value) : result value :=
  match v with
  | VNone => Ok VNone
  | VObj o_pk _ => Ok (from_option VInt VNone o_pk)
  | VInt _ => Raise ValueError
  end.

(** [__setattr__].  For the parent attribute [super().__setattr__] reaches
    the foreign-key descriptor, which assigns the key of the object to the
    [_id] attribute with [setattr], that is through [__setattr__] again. *)
Definition __setattr__ (meta : ClosureMeta) (db : DB) (self : obj)
    (name : string) (v : value) : result obj :=
  self ← capture_on_change meta db self name v;
  if decide (name = _closure_parent_attr meta) then
    key ← related_key v;
    setattr_data meta db self (name +:+ "_id") key
  else Ok (<[name := v]> self).

(** The assignment changes the watched reference: the name starts with
    the sentinel, the matching [_id] attribute is set and holds another
    key than the one assigned. *)
Definition changes_reference (meta : ClosureMeta) (self : obj)
    (name : string) (v : value) : Prop :=
  startswith name (_closure_sentinel_attr meta) = true
  ∧ ∃ current obj_id,
      self !! id_field_name name = Some current
      ∧ assigned_id name v = Ok obj_id
      ∧ current ≠ obj_id.

(** The three states of the tracker, read off the instance. *)
Inductive state : Set :=
  | Unobserved
  | Captured (old_parent : value).

Definition state_of (self : obj) : state :=
  match self !! "_closure_old_parent" with
  | Some v => Captured v
  | None => Unobserved
  end.

(** A model without [ClosureMeta], on a Django with
    [get_deferred_fields]. *)
Definition default_meta : ClosureMeta :=
  {| parent_attr := None; sentinel_attr := None;
     has_get_deferred_fields := true;
     concrete_fields := ["id"; "parent_id"; "level"] |}.

(** A persisted identity: the key attribute holds an integer. *)
Definition persisted (self : obj) : bool :=
  match self !! "id" with
  | Some (VInt _) => true
  | _ => false
  end.

End Tracker.

(** ** [prepopulate] *)

Module Prepopulate.

(** The objects live in a heap addressed by position: [prepopulate]
    mutates [_cached_children] of objects that are shared between the
    dictionary and the child lists. *)
Record Obj : Set := {
  obj_pk : option Z;
  obj_parent_pk : option Z;
  _cached_children : option (list nat);
}.

(** Python's [dict(pairs)]: a later pair replaces an earlier one. *)
Definition dict {V : Type} (pairs : list (option Z * V)) : gmap (option Z) V :=
  foldl (λ m kv, <[kv.1 := kv.2]> m) ∅ pairs.

Definition set_children (l : list nat) (o : Obj) : Obj :=
  {| obj_pk := obj_pk o; obj_parent_pk := obj_parent_pk o;
     _cached_children := Some l |}.

(** Reference [0] is [self], reference [i + 1] is [objs[i]]. *)
Definition refs (objs : list Obj) : list nat := seq 1 (length objs).

Definition hashobjs (self : Obj) (objs : list Obj) : gmap (option Z) nat :=
  dict (imap (λ i x, (obj_pk x, S i)) objs ++ [(obj_pk self, 0%nat)]).

Definition reset_children (self : Obj) (objs : list Obj) : list Obj :=
  foldl (λ heap r, alter (set_children []) r heap) (self :: objs)
        (map_to_list (hashobjs self objs)).*2.

Definition append_child (hash : gmap (option Z) nat) (r : nat)
    (heap : list Obj) : result (list Obj) :=
  match heap !! r with
  | Some descendant =>
      match hash !! obj_parent_pk descendant with
      | None => Raise AssertionError
      | Some p =>
          match heap !! p with
          | Some parent =>
              match _cached_children parent with
              | Some l => Ok (<[p := set_children (l ++ [r]) parent]> heap)
              | None => Raise AttributeError
              end
          | None => Raise AttributeError
          end
      end
  | None => Raise AttributeError
  end.

Definition prepopulate (self : Obj) (queryset : list Obj)
    : result (list Obj) :=
  let objs := queryset in
  let hash := hashobjs self objs in
  let heap := reset_children self objs in
  for_each (append_child hash) (refs objs) heap.

(** The adjacency map the heap encodes: the children recorded on the
    object that the dictionary holds under a key. *)
Definition children_of (self : Obj) (objs : list Obj) (heap : list Obj)
    (key : option Z) : option (list nat) :=
  r ← hashobjs self objs !! key;
  o ← heap !! r;
  _cached_children o.

(** The descendants whose parent key is [key], by reference, in the order
    of the queryset. *)
Definition listed_under (self : Obj) (objs : list Obj) (key : option Z)
    : list nat :=
  filter (λ i, obj_parent_pk <$> (self :: objs) !! i = Some key) (refs objs).

End Prepopulate.

(** ** Vocabulary of the statements *)

(** The backends for which [_closure_createlink] asks the database to
    ignore conflicts. *)
Definition dedup_vendor (vendor : string) : Prop :=
  vendor = "sqlite" ∨ vendor = "mysql" ∨ vendor = "postgresql".

Global Instance dedup_vendor_dec vendor : Decision (dedup_vendor vendor).
Proof. unfold dedup_vendor. apply _. Defined.

(** The self-link of a node. *)
Definition self_link (self : Node) : select_row := (0, pk self, pk self).

(** The triples stored in the closure table. *)
Definition triples (db : DB) : list select_row := triple <$> closure db.

(** A database with no row yet, and an instance as the constructor leaves
    it: no captured parent. *)
Definition empty_db : DB := {| nodes := []; closure := []; closure_seq := 1 |}.

Definition new_instance (n : Node) : Instance :=
  {| fields := n; _closure_old_parent := None |}.

(** The level the spec's "levelDelta" starts from: one more than the level
    of the parent, or [0] without a parent (what [pre_save] assigns). *)
Definition level_under (p : option Node) : Z :=
  match p with
  | Some n => level n + 1
  | None => 0
  end.

(** Saving freshly constructed instances one after the other. *)
Definition create_all (vendor : string) (l : list Node) (db : DB) : result DB :=
  for_each (λ n db, p ← save vendor (new_instance n) db; Ok p.2) l db.

(** ** The tree behind the parent pointers *)

(** The unique key of a selected row and of the table. *)
Definition sel_key (t : select_row) : Z * Z := (sel_parent t, sel_child t).

Definition unique_keys (rows : list select_row) : Prop :=
  NoDup (sel_key <$> rows).

(** Two lists hold the same rows. *)
Definition same_rows (l1 l2 : list select_row) : Prop :=
  l1 ⊆ l2 ∧ l2 ⊆ l1.

(** Key and parent key of every row, in table order. *)
Definition pointers (T : list Node) : list (Z * option Z) :=
  (λ n, (pk n, parent_id n)) <$> T.

Definition lookup_node (T : list Node) (x : Z) : option Node :=
  head (filter (λ n, pk n = x) T).

(** The parent [_closure_createlink] can see from a node: its parent key
    when that is truthy and is the key of a row of the table. *)
Definition parent_step (T : list Node) (x : Z) : option Z :=
  n ← lookup_node T x;
  p ← parent_id n;
  if truthy (Some p) && bool_decide (p ∈ pk <$> T) then Some p else None.

(** The ancestor [k] steps up. *)
Fixpoint up (T : list Node) (k : nat) (x : Z) : option Z :=
  match k with
  | O => Some x
  | S k' => p ← parent_step T x; up T k' p
  end.

(** Levels grow along the parent pointers: a row whose truthy parent key
    is the key of a row of the table has a larger level than that row. *)
Definition level_sound (T : list Node) : Prop :=
  Forall (λ n, Forall (λ m, parent_id n = Some (pk m) → pk m ≠ 0 →
                            level m < level n) T) T.

Global Instance level_sound_dec T : Decision (level_sound T).
Proof. unfold level_sound. apply _. Defined.

(** The rows a rebuild gives for a node table. *)
Definition rebuilt_triples (T : list Node) : list select_row :=
  match rebuildtable "sqlite"
          {| nodes := T; closure := []; closure_seq := 1 |} with
  | Ok db => triples db
  | Raise _ => []
  end.

(** No node is its own proper ancestor. *)
Definition acyclic (T : list Node) : Prop :=
  ∀ x k, up T (S k) x ≠ Some x.

(** The rows are those of the nodes in [D], each with its self-link and
    one row per ancestor at the right distance, and no two share a key. *)
Definition exact_on (T : list Node) (D : Z → Prop) (rows : list select_row)
    : Prop :=
  unique_keys rows
  ∧ ∀ d x a, (d, x, a) ∈ rows ↔
             D x ∧ ∃ k : nat, d = Z.of_nat k ∧ up T k x = Some a.

Global Instance same_rows_dec l1 l2 : Decision (same_rows l1 l2).
Proof. unfold same_rows. apply _. Defined.

Global Instance unique_keys_dec rows : Decision (unique_keys rows).
Proof. unfold unique_keys. apply _. Defined.

(** ** Consistent tables *)

(** The closure table is in step with the node table: keys are unique,
    levels grow along the parent pointers and the closure rows are those a
    rebuild would store. *)
Definition consistent (db : DB) : Prop :=
  NoDup (pk <$> nodes db)
  ∧ level_sound (nodes db)
  ∧ unique_keys (triples db)
  ∧ same_rows (triples db) (rebuilt_triples (nodes db)).

Global Instance consistent_dec db : Decision (consistent db).
Proof. unfold consistent. apply _. Defined.

(** The optional bound on the distance. *)
Definition within (depth_lte : option Z) (k : nat) : Prop :=
  match depth_lte with
  | Some d => Z.of_nat k ≤ d
  | None => True
  end.

(** The row of the parent [_closure_createlink] can see from a node. *)
Definition parent_row (T : list Node) (x : Z) : option Node :=
  p ← parent_step T x; lookup_node T p.

(** Every level is one more than the level of the parent row, [0] for a
    row without one. *)
Definition levels_exact (T : list Node) : Prop :=
  Forall (λ n, level n = level_under (parent_row T (pk n))) T.

Global Instance levels_exact_dec T : Decision (levels_exact T).
Proof. unfold levels_exact. apply _. Defined.

(** Parents come first: the parent key of every row is null, [0], or the
    key of an earlier row ([seen] holds the keys met so far). *)
Fixpoint parents_first (seen : list Z) (l : list Node) : Prop :=
  match l with
  | [] => True
  | n :: l' =>
      from_option (λ p, p = 0 ∨ p ∈ seen) True (parent_id n)
      ∧ parents_first (seen ++ [pk n]) l'
  end.

Global Instance parents_first_dec seen l : Decision (parents_first seen l).
Proof.
  revert seen. induction l as [|n l IH]; intros seen; simpl; [apply _|].
  destruct (parent_id n); simpl; apply _.
Defined.

(** A node instance as [prepopulate] sees it: its key, its parent key, no
    cached children yet. *)
Definition as_obj (n : Node) : Prepopulate.Obj :=
  {| Prepopulate.obj_pk := Some (pk n);
     Prepopulate.obj_parent_pk := parent_id n;
     Prepopulate._cached_children := None |}.

(** A small consistent table: [2] and [4] under [1], [3] under [2]. *)
Definition example_db : DB :=
  {| nodes := [{| pk := 1; parent_id := None; level := 0 |};
               {| pk := 2; parent_id := Some 1; level := 1 |};
               {| pk := 3; parent_id := Some 2; level := 2 |};
               {| pk := 4; parent_id := Some 1; level := 1 |}];
     closure := [new_row 1 (0, 1, 1); new_row 2 (0, 2, 2);
                 new_row 3 (1, 2, 1); new_row 4 (0, 3, 3);
                 new_row 5 (1, 3, 2); new_row 6 (2, 3, 1);
                 new_row 7 (0, 4, 4); new_row 8 (1, 4, 1)];
     closure_seq := 9 |}.

(** ** Proof automation *)

(** Unfold [<$>] on an option without touching the decisions below it. *)
Ltac osimpl := cbn [fmap option_fmap option_map].
(** * Properties *)

(** ** Lists *)

Lemma filter_ext_elem {A : Type} (P Q : A → Prop)
    `{!∀ x, Decision (P x)} `{!∀ x, Decision (Q x)} (l : list A) :
  (∀ x, x ∈ l → P x ↔ Q x) → filter P l = filter Q l.
Proof.
  induction l as [|x l IH]; intros Hl; [done|].
  rewrite !filter_cons, IH by (intros y Hy; apply Hl, elem_of_cons; by right).
  assert (P x ↔ Q x) as Hx by (apply Hl, elem_of_cons; by left).
  destruct (decide (P x)), (decide (Q x)); naive_solver.
Qed.

Lemma filter_none {A : Type} (P : A → Prop) `{!∀ x, Decision (P x)} (l : list A) :
  (∀ x, x ∈ l → ¬ P x) → filter P l = [].
Proof.
  induction l as [|x l IH]; intros Hl; [done|].
  rewrite filter_cons_False by (apply Hl, elem_of_cons; by left).
  apply IH. intros y Hy. apply Hl, elem_of_cons. by right.
Qed.

Lemma key_taken_iff tbl t :
  key_taken tbl t ↔ ∃ r, r ∈ tbl ∧ parent r = sel_parent t ∧ child r = sel_child t.
Proof. unfold key_taken. rewrite Exists_exists. naive_solver. Qed.

Lemma key_taken_app tbl l t :
  key_taken (tbl ++ l) t ↔ key_taken tbl t ∨ key_taken l t.
Proof. unfold key_taken. apply Exists_app. Qed.

Lemma key_taken_new_row seq t : key_taken [new_row seq t] t.
Proof. apply key_taken_iff. exists (new_row seq t). split; [by apply list_elem_of_singleton | done]. Qed.

(** ** Rows handed to the [INSERT] *)

(** What a successful insertion leaves: the old rows, followed by fresh
    rows for some of the selected triples, numbered from the sequence. *)
Lemma insert_rows_Ok ignore ts tbl seq tbl' seq' :
  insert_rows ignore ts tbl seq = Ok (tbl', seq') →
  ∃ added, tbl' = tbl ++ added
    ∧ seq' = seq + Z.of_nat (length added)
    ∧ (∀ r, r ∈ added → triple r ∈ ts ∧ ¬ key_taken tbl (triple r)
                         ∧ seq ≤ closure_pk r < seq')
    ∧ (∀ t, t ∈ ts → key_taken tbl' t).
Proof.
  revert tbl seq tbl' seq'.
  induction ts as [|t ts IH]; intros tbl seq tbl' seq' H; simpl in H.
  - simplify_eq. exists []. rewrite app_nil_r.
    split_and!; [done|simpl; lia| |]; intros ? ?%elem_of_nil; done.
  - destruct (decide (key_taken tbl t)) as [Ht|Ht].
    + destruct ignore; [|done].
      destruct (IH _ _ _ _ H) as (added & E1 & E2 & Hadd & Hall).
      exists added. split_and!; [done|done| |].
      * intros r Hr. destruct (Hadd r Hr) as (? & ? & ?).
        split_and!; [by apply elem_of_cons; right|done|lia|lia].
      * intros t' [->|Ht']%elem_of_cons; [|by apply Hall].
        subst tbl'. apply key_taken_app. by left.
    + destruct (IH _ _ _ _ H) as (added & E1 & E2 & Hadd & Hall).
      exists (new_row seq t :: added). split_and!.
      * by rewrite E1, <- app_assoc.
      * simpl length. lia.
      * intros r [->|Hr]%elem_of_cons.
        -- destruct t as [[d c] p].
           split_and!; [by apply elem_of_cons; left|done|simpl; lia|simpl; lia].
        -- destruct (Hadd r Hr) as (? & Hk & ?).
           split_and!; [by apply elem_of_cons; right| |lia|lia].
           intros Hk'. apply Hk. rewrite key_taken_app. by left.
      * intros t' [->|Ht']%elem_of_cons; [|by apply Hall].
        rewrite E1, <- app_assoc. apply key_taken_app. right.
        apply key_taken_app. left. apply key_taken_new_row.
Qed.

(** With [ignore] the insertion never fails. *)
Lemma insert_rows_ignore_total ts tbl seq :
  ∃ tbl' seq', insert_rows true ts tbl seq = Ok (tbl', seq').
Proof.
  revert tbl seq. induction ts as [|t ts IH]; intros tbl seq; simpl; [by eauto|].
  destruct (decide (key_taken tbl t)); apply IH.
Qed.

(** When every key is taken, the ignoring insertion changes nothing. *)
Lemma insert_rows_all_taken ts tbl seq :
  (∀ t, t ∈ ts → key_taken tbl t) →
  insert_rows true ts tbl seq = Ok (tbl, seq).
Proof.
  induction ts as [|t ts IH]; intros H; simpl; [done|].
  destruct (decide (key_taken tbl t)) as [|Hn].
  - apply IH. intros t' Ht'. apply H. by apply elem_of_cons; right.
  - destruct Hn. apply H. by apply elem_of_cons; left.
Qed.

(** The plain [INSERT] fails as soon as the first key is taken. *)
Lemma insert_rows_plain_taken t ts tbl seq :
  key_taken tbl t → insert_rows false (t :: ts) tbl seq = Raise IntegrityError.
Proof. intros H. simpl. by rewrite decide_True. Qed.

(** ** [_closure_createlink] *)

Lemma ignores_conflicts_createlink vendor tbl self :
  ignores_conflicts (createlink_statement vendor tbl self)
  = bool_decide (dedup_vendor vendor).
Proof.
  unfold createlink_statement, ignores_conflicts.
  destruct (decide (vendor = "sqlite")) as [->|?]; [done|].
  destruct (decide (vendor = "mysql")) as [->|?]; [done|].
  destruct (decide (vendor = "postgresql")) as [->|?]; [done|].
  rewrite (bool_decide_eq_false_2 (dedup_vendor vendor)); [done|].
  unfold dedup_vendor. naive_solver.
Qed.

Lemma selects_union_createlink vendor tbl self :
  selects_union (createlink_statement vendor tbl self)
  = union (createlink_selects tbl self).
Proof. unfold createlink_statement. by repeat case_decide. Qed.

(** The rows of the statement, whatever the backend: the self-link and,
    for a truthy parent key, the rows of the parent one step further. *)
Lemma elem_of_createlink_rows tbl self t :
  t ∈ union (createlink_selects tbl self) ↔
  t = self_link self
  ∨ (truthy (parent_id self) = true
     ∧ ∃ r, r ∈ tbl ∧ Some (child r) = parent_id self
            ∧ t = (depth r + 1, pk self, parent r)).
Proof.
  unfold union, createlink_selects, _closure_parent_pk, self_link.
  rewrite elem_of_remove_dups.
  destruct (truthy (parent_id self)); simpl.
  - rewrite app_nil_r, elem_of_cons, list_elem_of_fmap.
    setoid_rewrite list_elem_of_filter. naive_solver.
  - rewrite list_elem_of_singleton. naive_solver.
Qed.

Lemma createlink_rows_falsy tbl self :
  truthy (parent_id self) = false →
  union (createlink_selects tbl self) = [self_link self].
Proof. intros H. unfold union, createlink_selects, _closure_parent_pk. by rewrite H. Qed.

(** Every row of the statement names the node as child. *)
Lemma createlink_rows_child tbl self t :
  t ∈ union (createlink_selects tbl self) → sel_child t = pk self.
Proof. rewrite elem_of_createlink_rows. naive_solver. Qed.

Lemma createlink_unfold vendor self db :
  _closure_createlink vendor self db =
  '(tbl, seq) ← insert_rows (bool_decide (dedup_vendor vendor))
                  (union (createlink_selects (closure db) self))
                  (closure db) (closure_seq db);
  Ok {| nodes := nodes db; closure := tbl; closure_seq := seq |}.
Proof.
  unfold _closure_createlink, cursor_execute.
  by rewrite ignores_conflicts_createlink, selects_union_createlink.
Qed.

(** X1: for a parent key other than [0] (or no parent) the statement of
    [_closure_createlink] carries, on every backend, exactly the self-link
    and, for every closure row whose child is the parent, the row from its
    ancestor to the node one step deeper. *)
Lemma createlink_rows_nonzero_parent vendor tbl self t :
  parent_id self ≠ Some 0 →
  t ∈ selects_union (createlink_statement vendor tbl self) ↔
  t = self_link self
  ∨ ∃ r, r ∈ tbl ∧ Some (child r) = parent_id self
         ∧ t = (depth r + 1, pk self, parent r).
Proof.
  intros Hp. rewrite selects_union_createlink, elem_of_createlink_rows.
  destruct (parent_id self) as [p|] eqn:E; simpl.
  - assert (negb (p =? 0) = true) by (apply negb_true_iff, Z.eqb_neq; congruence).
    naive_solver.
  - naive_solver.
Qed.

Lemma createlink_rows_nonzero_parent_witness :
  (1, 2, 1) ∈ selects_union
                (createlink_statement "mysql" [new_row 1 (0, 1, 1)]
                   {| pk := 2; parent_id := Some 1; level := 1 |}).
Proof.
  apply (createlink_rows_nonzero_parent "mysql"); [discriminate|].
  right. exists (new_row 1 (0, 1, 1)).
  split; [constructor|]. split; reflexivity.
Defined.

(** C1, at the failing input: a node whose parent has key [0].  The parent
    has its closure row, [is_root_node] says the node is no root, and yet
    the statement of [_closure_createlink] carries the self-link alone, so
    that the row [(0, 5, 1)] the claim asks for is never stored. *)
Theorem createlink_ignores_parent_with_key_0 :
  let root := {| pk := 0; parent_id := None; level := 0 |} in
  let node := {| pk := 5; parent_id := Some 0; level := 0 |} in
  ∃ db1 db2,
    save "sqlite" (new_instance root) empty_db = Ok (new_instance root, db1)
    ∧ triples db1 = [(0, 0, 0)]
    ∧ is_root_node node = false
    ∧ selects_union (createlink_statement "sqlite" (closure db1) node)
      = [(0, 5, 5)]
    ∧ save "sqlite" (new_instance node) db1 = Ok (new_instance node, db2)
    ∧ triples db2 = [(0, 0, 0); (0, 5, 5)].
Proof. eexists _, _. split_and!; vm_compute; reflexivity. Qed.



(** After a successful [_closure_createlink] every key of its statement is
    in the table, and the rows it added all name the node as child. *)
Lemma createlink_Ok vendor self db db' :
  _closure_createlink vendor self db = Ok db' →
  nodes db' = nodes db
  ∧ ∃ added, closure db' = closure db ++ added
      ∧ closure_seq db' = closure_seq db + Z.of_nat (length added)
      ∧ (∀ r, r ∈ added →
           triple r ∈ union (createlink_selects (closure db) self)
           ∧ ¬ key_taken (closure db) (triple r)
           ∧ closure_seq db ≤ closure_pk r < closure_seq db')
      ∧ (∀ t, t ∈ union (createlink_selects (closure db) self) →
           key_taken (closure db') t).
Proof.
  rewrite createlink_unfold. intros H.
  destruct (insert_rows _ _ _ _) as [[tbl seq]|] eqn:E; [|done].
  simpl in H. simplify_eq. simpl. split; [done|].
  by apply insert_rows_Ok in E.
Qed.

Lemma createlink_dedup_total vendor self db :
  dedup_vendor vendor → ∃ db', _closure_createlink vendor self db = Ok db'.
Proof.
  intros Hv. rewrite createlink_unfold, bool_decide_true by done.
  destruct (insert_rows_ignore_total
              (union (createlink_selects (closure db) self))
              (closure db) (closure_seq db)) as (tbl & seq & ->).
  by eexists.
Qed.

(** Once a node has been linked, the keys of a second statement for it are
    all taken. *)
Lemma createlink_keys_taken_again vendor self db db' t :
  _closure_createlink vendor self db = Ok db' →
  t ∈ union (createlink_selects (closure db') self) →
  key_taken (closure db') t.
Proof.
  intros (_ & added & Hc & _ & Hadd & Hall)%createlink_Ok Ht.
  apply elem_of_createlink_rows in Ht as [->|(Htr & r & Hr & Hch & ->)].
  - apply Hall, elem_of_createlink_rows. by left.
  - rewrite Hc in Hr. apply elem_of_app in Hr as [Hr|Hr].
    + apply Hall, elem_of_createlink_rows. right. split; [done|]. by exists r.
    + (* [r] was just added: it is a row of the node itself *)
      destruct (Hadd r Hr) as (Hsel%createlink_rows_child & _ & _).
      apply key_taken_iff. exists r. rewrite Hc. split.
      * apply elem_of_app. by right.
      * done.
Qed.

(** C4, counterexample: on a backend outside the three the code names, the
    statement is a plain [INSERT]; the second call for the same node meets
    its own self-link and raises. *)
Lemma createlink_twice_raises_on_plain_insert :
  let node := {| pk := 1; parent_id := None; level := 0 |} in
  ∃ db1,
    _closure_createlink "oracle" node empty_db = Ok db1
    ∧ _closure_createlink "oracle" node db1 = Raise IntegrityError.
Proof. eexists. split; vm_compute; reflexivity. Qed.

(** C4, amended: on sqlite, mysql and postgresql a second
    [_closure_createlink] for the same node succeeds and leaves the closure
    rows (and the node table) exactly as the first call left them. *)
Theorem createlink_idempotent vendor self db :
  dedup_vendor vendor →
  ∃ db1 db2,
    _closure_createlink vendor self db = Ok db1
    ∧ _closure_createlink vendor self db1 = Ok db2
    ∧ closure db2 = closure db1
    ∧ nodes db2 = nodes db1.
Proof.
  intros Hv. destruct (createlink_dedup_total vendor self db Hv) as [db1 H1].
  exists db1, db1. split; [done|]. split; [|done].
  rewrite createlink_unfold, bool_decide_true by done.
  rewrite insert_rows_all_taken.
  - by destruct db1.
  - intros t Ht. by eapply createlink_keys_taken_again.
Qed.

Lemma createlink_idempotent_witness :
  ∃ db1 db2,
    _closure_createlink "postgresql"
      {| pk := 2; parent_id := Some 1; level := 1 |}
      {| nodes := []; closure := [new_row 1 (0, 1, 1)]; closure_seq := 2 |}
    = Ok db1
    ∧ _closure_createlink "postgresql"
        {| pk := 2; parent_id := Some 1; level := 1 |} db1 = Ok db2
    ∧ closure db2 = closure db1
    ∧ nodes db2 = nodes db1.
Proof.
  apply (createlink_idempotent "postgresql"). right. right. reflexivity.
Defined.

(** X5: on a backend other than sqlite, mysql and postgresql a second
    [_closure_createlink] for a node that has been linked always raises
    [IntegrityError]. *)
Lemma createlink_twice_plain vendor self db db1 :
  ¬ dedup_vendor vendor →
  _closure_createlink vendor self db = Ok db1 →
  _closure_createlink vendor self db1 = Raise IntegrityError.
Proof.
  intros Hv H1. rewrite createlink_unfold, bool_decide_false by done.
  assert (∃ t ts, union (createlink_selects (closure db1) self) = t :: ts)
    as (t & ts & E).
  { destruct (union _) as [|t ts] eqn:E; [|by eauto].
    assert (self_link self ∈ union (createlink_selects (closure db1) self))
      as Hin by (apply elem_of_createlink_rows; by left).
    rewrite E in Hin. by apply elem_of_nil in Hin. }
  rewrite E, insert_rows_plain_taken; [done|].
  eapply createlink_keys_taken_again; [done|]. rewrite E. apply elem_of_cons. by left.
Qed.

Lemma createlink_twice_plain_witness :
  _closure_createlink "oracle" {| pk := 1; parent_id := None; level := 0 |}
    {| nodes := []; closure := [new_row 1 (0, 1, 1)]; closure_seq := 2 |}
  = Raise IntegrityError.
Proof.
  apply (createlink_twice_plain "oracle" _ empty_db).
  - intros [H|[H|H]]; discriminate H.
  - reflexivity.
Defined.

(** ** [_closure_deletelink] *)

(** C7: [_closure_deletelink] removes exactly the closure rows whose child
    is the node, keeps the others in their order, touches nothing else, and
    in particular keeps every row where the node is the parent of another
    node. *)
Theorem deletelink_removes_exactly_child_rows self db :
  nodes (_closure_deletelink self db) = nodes db
  ∧ closure_seq (_closure_deletelink self db) = closure_seq db
  ∧ closure (_closure_deletelink self db) `sublist_of` closure db
  ∧ (∀ r, r ∈ closure (_closure_deletelink self db) ↔
          r ∈ closure db ∧ child r ≠ pk self)
  ∧ (∀ r, r ∈ closure db → parent r = pk self → child r ≠ pk self →
          r ∈ closure (_closure_deletelink self db)).
Proof.
  unfold _closure_deletelink. simpl. split_and!; [done|done|apply sublist_filter| |].
  - intros r. rewrite list_elem_of_filter. naive_solver.
  - intros r Hr _ Hc. by apply list_elem_of_filter.
Qed.

(** ** [is_descendant_of] *)

(** C6, at the failing input: node [3] is created under node [10] in an
    empty database.  The closure table then holds the row from [10] to [3]
    at depth [1], numbered [3] by the sequence, and [exclude(pk=self.pk)]
    drops it: the query answers [false]. *)
Theorem is_descendant_of_drops_row_numbered_as_node :
  let a := {| pk := 10; parent_id := None; level := 0 |} in
  let b := {| pk := 3; parent_id := Some 10; level := 1 |} in
  ∃ db1 db2,
    save "sqlite" (new_instance a) empty_db = Ok (new_instance a, db1)
    ∧ save "sqlite" (new_instance b) db1 = Ok (new_instance b, db2)
    ∧ {| closure_pk := 3; parent := 10; child := 3; depth := 1 |} ∈ closure db2
    ∧ is_descendant_of db2 b a false = false
    ∧ is_descendant_of db2 b a true = false.
Proof.
  eexists _, _.
  split; [vm_compute; reflexivity|]. split; [vm_compute; reflexivity|].
  split; [vm_compute; repeat constructor|].
  split; vm_compute; reflexivity.
Qed.

(** ** The reparent update *)



(** C2, at a failing input: the claim asks that after a move the closure
    rows of the moved subtree equal those of a rebuild for the final
    parent pointers.  Node [2], child of [1] with a child [3], is given
    the parent [4] (the instance is as [n.parent = p] leaves it: the new
    key, the old parent captured) and saved.  [pre_save] and the write of
    the row succeed, then the reparent update raises [NameError] at the
    name [F], on every backend, before any closure row is deleted or
    created: the rows of the subtree stay those of the old parent, where
    a rebuild gives those of the new one. *)
Theorem reparent_update_stops_at_unbound_F :
  let r := {| pk := 1; parent_id := None; level := 0 |} in
  let n := {| pk := 2; parent_id := Some 1; level := 1 |} in
  let d := {| pk := 3; parent_id := Some 2; level := 2 |} in
  let p := {| pk := 4; parent_id := None; level := 0 |} in
  let moved := {| fields := {| pk := 2; parent_id := Some 4; level := 1 |};
                  _closure_old_parent := Some (Some r) |} in
  ∃ db db1 db2,
    create_all "sqlite" [r; n; d; p] empty_db = Ok db
    ∧ closure_model_set_level db moved = Ok moved
    ∧ write_row moved db = (db1, false)
    ∧ (∀ vendor, _closure_update_links vendor moved db1 = Raise NameError)
    ∧ (∀ vendor, closure_model_save vendor moved false db1 = Raise NameError)
    ∧ (∀ vendor, save vendor moved db = Raise NameError)
    ∧ filter (λ t, sel_child t ∈ [2; 3]) (triples db1)
      = [(0, 2, 2); (1, 2, 1); (0, 3, 3); (1, 3, 2); (2, 3, 1)]
    ∧ rebuildtable "sqlite" db1 = Ok db2
    ∧ filter (λ t, sel_child t ∈ [2; 3]) (triples db2)
      = [(0, 2, 2); (1, 2, 4); (0, 3, 3); (1, 3, 2); (2, 3, 4)].
Proof.
  intros r n d p moved. eexists _, _, _.
  split_and!; try intros vendor; vm_compute; reflexivity.
Qed.

(** C3, at two failing inputs: the claim asks that the update add
    [(new parent's level + 1, or 0) - old level] to the level of every
    descendant.  First [n], a child of the root [r] with a child [d],
    becomes a root ([n.parent = None]): the claimed delta is [-1], so [d]
    should end at level [1].  Then the root [n'], with a child [d'], is
    moved under [r] ([n'.parent = r]): the claimed delta is [1], so [d']
    should end at level [2].  In both runs [pre_save] gives the moved
    node its new level, the row is written, and the update raises
    [NameError] at [F]: no level of a descendant is changed, [d] stays at
    [2] and [d'] at [1]. *)
Theorem reparent_update_never_shifts_levels :
  let r := {| pk := 1; parent_id := None; level := 0 |} in
  let n := {| pk := 2; parent_id := Some 1; level := 1 |} in
  let d := {| pk := 3; parent_id := Some 2; level := 2 |} in
  let n' := {| pk := 2; parent_id := None; level := 0 |} in
  let d' := {| pk := 3; parent_id := Some 2; level := 1 |} in
  (let moved := {| fields := {| pk := 2; parent_id := None; level := 1 |};
                   _closure_old_parent := Some (Some r) |} in
   ∃ db db1,
     create_all "sqlite" [r; n; d] empty_db = Ok db
     ∧ nodes db = [r; n; d]
     ∧ closure_model_set_level db moved = Ok (set_level 0 moved)
     ∧ write_row (set_level 0 moved) db = (db1, false)
     ∧ level_under None - level n = -1
     ∧ closure_model_save "sqlite" (set_level 0 moved) false db1
       = Raise NameError
     ∧ save "sqlite" moved db = Raise NameError
     ∧ nodes db1 = [r; {| pk := 2; parent_id := None; level := 0 |};
                       {| pk := 3; parent_id := Some 2; level := 2 |}])
  ∧ (let moved := {| fields := {| pk := 2; parent_id := Some 1; level := 0 |};
                     _closure_old_parent := Some None |} in
     ∃ db db1,
       create_all "sqlite" [r; n'; d'] empty_db = Ok db
       ∧ nodes db = [r; n'; d']
       ∧ closure_model_set_level db moved = Ok (set_level 1 moved)
       ∧ write_row (set_level 1 moved) db = (db1, false)
       ∧ level_under (Some r) - level n' = 1
       ∧ closure_model_save "sqlite" (set_level 1 moved) false db1
         = Raise NameError
       ∧ save "sqlite" moved db = Raise NameError
       ∧ nodes db1 = [r; {| pk := 2; parent_id := Some 1; level := 1 |};
                         {| pk := 3; parent_id := Some 2; level := 1 |}]).
Proof.
  split; eexists _, _; split_and!; vm_compute; reflexivity.
Qed.

(** ** A parent reference that does not resolve *)





(** ** The change tracker *)

Section tracker.
Import Tracker.

Lemma already_set_iff meta (self : obj) name :
  already_set meta self name = true ↔ is_Some (self !! id_field_name name).
Proof.
  unfold already_set, hasattr, get_deferred_fields.
  destruct (has_get_deferred_fields meta); simpl.
  - rewrite orb_false_r, andb_true_iff, negb_true_iff, bool_decide_eq_true,
      bool_decide_eq_false, list_elem_of_filter.
    split; [naive_solver|]. intros [x Hx]. split; [|by eexists].
    intros [Hnone _]. congruence.
  - by rewrite bool_decide_eq_true.
Qed.

Lemma state_of_Unobserved (self : obj) :
  state_of self = Unobserved ↔ _closure_change_check self = false.
Proof.
  unfold state_of, _closure_change_check, hasattr.
  rewrite bool_decide_eq_false.
  destruct (self !! "_closure_old_parent") eqn:E; split; try done.
  intros H. destruct H. by eexists.
Qed.

Lemma state_of_insert_ne (self : obj) name v :
  name ≠ "_closure_old_parent" → state_of (<[name := v]> self) = state_of self.
Proof. intros H. unfold state_of. by rewrite lookup_insert_ne. Qed.

Lemma state_of_capture (self : obj) old :
  state_of (<["_closure_old_parent" := old]> self) = Captured old.
Proof. unfold state_of. by rewrite lookup_insert_eq. Qed.

(** No attribute name ending in [_id] is the tracker's own attribute. *)
Lemma append_id_ne name : name +:+ "_id" ≠ "_closure_old_parent".
Proof.
  intros H.
  do 19 (destruct name as [|? name]; simpl in H; [discriminate|];
         injection H as _ H).
  by destruct name.
Qed.

(** The two outcomes of the check that precedes the assignment. *)
Lemma capture_on_change_Ok meta db (self self' : obj) name v :
  capture_on_change meta db self name v = Ok self' →
  (state_of self = Unobserved ∧ changes_reference meta self name v
   ∧ ∃ old, _closure_parent meta db self = Ok old
            ∧ self' = <["_closure_old_parent" := old]> self)
  ∨ (¬ (state_of self = Unobserved ∧ changes_reference meta self name v)
     ∧ self' = self).
Proof.
  unfold capture_on_change, changes_reference. intros H.
  destruct (startswith name (_closure_sentinel_attr meta)) eqn:Es; simpl in H;
    [|right; split; [naive_solver|congruence]].
  destruct (already_set meta self name) eqn:Ea; simpl in H.
  2:{ right. split; [|congruence]. intros (_ & _ & cur & ? & Hcur & _).
      assert (already_set meta self name = true) by (apply already_set_iff; by eexists).
      congruence. }
  destruct (_closure_change_check self) eqn:Ec; simpl in H.
  { right. split; [|congruence]. intros [Hu%state_of_Unobserved _]. congruence. }
  destruct (assigned_id name v) as [obj_id|] eqn:Eo; [|done]. simpl in H.
  destruct (self !! id_field_name name) as [current|] eqn:El; [|done].
  destruct (decide (current ≠ obj_id)) as [Hne|Heq].
  - left. split_and!; [by apply state_of_Unobserved|done|by eauto|].
    unfold _closure_change_init in H.
    destruct (_closure_parent meta db self) as [old|]; [|done].
    simpl in H. simplify_eq. by exists old.
  - right. split; [|congruence].
    intros (_ & _ & cur & oid & ? & ? & ?). simplify_eq. by apply Heq.
Qed.

(** C5, counterexample: an instance that was never saved (its key is
    [None]) leaves the constructor with [parent_id] set; assigning a parent
    to it captures the old parent like on any other instance. *)
Lemma unsaved_instance_is_captured :
  let fresh : obj :=
    <["id" := VNone]> (<["parent_id" := VNone]> (<["level" := VInt 0]> ∅)) in
  persisted fresh = false
  ∧ state_of fresh = Unobserved
  ∧ (self' ← __setattr__ default_meta empty_db fresh "parent" (VObj (Some 1) 0);
     Ok (state_of self', persisted self'))
    = Ok (Captured VNone, false).
Proof. split_and!; vm_compute; reflexivity. Qed.

(** C5, amended: an assignment moves the tracker from Unobserved to
    Captured, storing the parent read through [_closure_parent], exactly
    when it changes the watched reference: the name starts with the
    sentinel, the [_id] attribute is already set on the instance, and the
    assigned value resolves to another key than the stored one (for the
    parent attribute itself the descriptor's assignment of the [_id]
    attribute is checked as well).  Whether the instance has been saved
    plays no part.  In every other case, re-assigning the stored value
    among them, the state is unchanged. *)
Theorem setattr_tracker_transition meta db (self self' : obj) name v :
  name ≠ "_closure_old_parent" →
  __setattr__ meta db self name v = Ok self' →
  let watched :=
    changes_reference meta self name v
    ∨ (name = _closure_parent_attr meta
       ∧ ∃ key, related_key v = Ok key
                ∧ changes_reference meta self (name +:+ "_id") key) in
  (state_of self = Unobserved ∧ watched →
     ∃ old, _closure_parent meta db self = Ok old
            ∧ state_of self' = Captured old)
  ∧ (¬ (state_of self = Unobserved ∧ watched) →
     state_of self' = state_of self).
Proof.
  intros Hname H watched. subst watched. unfold __setattr__ in H.
  destruct (capture_on_change meta db self name v) as [self1|] eqn:E1; [|done].
  simpl in H. apply capture_on_change_Ok in E1.
  destruct (decide (name = _closure_parent_attr meta)) as [Hfk|Hfk].
  - destruct (related_key v) as [key|] eqn:Ek; [|done]. simpl in H.
    unfold setattr_data in H.
    destruct (capture_on_change meta db self1 (name +:+ "_id") key)
      as [self2|] eqn:E2; [|done].
    simpl in H. simplify_eq. apply capture_on_change_Ok in E2.
    rewrite state_of_insert_ne by apply append_id_ne.
    destruct E1 as [(Hu & Hch & old & Hold & ->)|[Hno ->]].
    + (* captured by the outer check; the inner one sees it *)
      destruct E2 as [(Hu2 & _)|[_ ->]].
      { by rewrite state_of_capture in Hu2. }
      rewrite state_of_capture. split; [by eauto|].
      intros Hn. destruct Hn. eauto.
    + destruct E2 as [(Hu & Hch & old & Hold & ->)|[Hno2 ->]].
      * rewrite state_of_capture. split; [by eauto|].
        intros Hn. destruct Hn. split; [done|]. right. eauto.
      * split; [|done]. intros [Hu [Hch|(_ & key' & Hk & Hch)]].
        -- destruct Hno. done.
        -- destruct Hno2. by simplify_eq.
  - simplify_eq. rewrite state_of_insert_ne by done.
    destruct E1 as [(Hu & Hch & old & Hold & ->)|[Hno ->]].
    + rewrite state_of_capture. split; [by eauto|].
      intros Hn. destruct Hn. eauto.
    + split; [|done]. intros [Hu [Hch|(? & _)]]; [|done].
      destruct Hno. done.
Qed.

Lemma setattr_tracker_transition_witness :
  let db := {| nodes := [{| pk := 1; parent_id := None; level := 0 |}];
               closure := []; closure_seq := 1 |} in
  let loaded : obj :=
    <["id" := VInt 2]> (<["parent_id" := VInt 1]> (<["level" := VInt 1]> ∅)) in
  ∃ old, _closure_parent default_meta db loaded = Ok old
         ∧ state_of (<["parent_id" := VInt 3]>
                       (<["_closure_old_parent" := VObj (Some 1) 0]> loaded))
           = Captured old.
Proof.
  intros db loaded.
  apply (setattr_tracker_transition default_meta db loaded _ "parent_id" (VInt 3)).
  - discriminate.
  - reflexivity.
  - split; [reflexivity|]. left. split; [reflexivity|].
    exists (VInt 1), (VInt 3). split_and!; [reflexivity|reflexivity|discriminate].
Defined.

End tracker.

(** ** [prepopulate] *)

Section prepopulate.
Import Prepopulate.

Lemma dict_snoc {V : Type} (l : list (option Z * V)) kv :
  dict (l ++ [kv]) = <[kv.1 := kv.2]> (dict l).
Proof. unfold dict. by rewrite foldl_snoc. Qed.

Lemma dict_lookup_Some {V : Type} (l : list (option Z * V)) k v :
  dict l !! k = Some v → (k, v) ∈ l.
Proof.
  induction l as [|[k' v'] l IH] using rev_ind; [done|].
  rewrite dict_snoc, elem_of_app, list_elem_of_singleton. simpl.
  destruct (decide (k' = k)) as [->|Hne].
  - rewrite lookup_insert_eq. intros [= ->]. by right.
  - rewrite lookup_insert_ne by done. auto.
Qed.

Lemma dict_lookup_is_Some {V : Type} (l : list (option Z * V)) k :
  is_Some (dict l !! k) ↔ k ∈ l.*1.
Proof.
  induction l as [|[k' v'] l IH] using rev_ind.
  - unfold dict. simpl. rewrite lookup_empty, elem_of_nil. split; [by intros [??]|done].
  - rewrite dict_snoc, fmap_app, elem_of_app. simpl.
    rewrite list_elem_of_singleton.
    destruct (decide (k' = k)) as [->|Hne].
    + rewrite lookup_insert_eq. split; [by right|by eexists].
    + rewrite lookup_insert_ne by done. rewrite IH. naive_solver.
Qed.

Section loop.
Variables (self : Obj) (objs : list Obj).

Let heap0 : list Obj := self :: objs.
Let hash : gmap (option Z) nat := hashobjs self objs.

(** The dictionary holds, under each key, an object that has this key. *)
Lemma hashobjs_lookup k r :
  hash !! k = Some r → ∃ o, heap0 !! r = Some o ∧ obj_pk o = k.
Proof.
  intros H%dict_lookup_Some.
  apply elem_of_app in H as [H|H].
  - apply elem_of_lookup_imap in H as (i & x & [= -> ->] & Hx). by exists x.
  - apply list_elem_of_singleton in H as [= -> ->]. by exists self.
Qed.

Lemma hashobjs_keys k :
  is_Some (hash !! k) ↔ k ∈ obj_pk self :: (obj_pk <$> objs).
Proof.
  unfold hash, hashobjs. rewrite dict_lookup_is_Some, fmap_app, fmap_imap.
  simpl. rewrite elem_of_app, list_elem_of_singleton, elem_of_cons.
  replace (imap (λ n, fst ∘ (λ x, (obj_pk x, S n))) objs) with (obj_pk <$> objs).
  - naive_solver.
  - apply list_eq. intros i. by rewrite list_lookup_imap, list_lookup_fmap.
Qed.

(** The references the dictionary holds. *)
Let held (r : nat) : Prop := r ∈ (map_to_list hash).*2.

Lemma held_iff r : held r ↔ ∃ k, hash !! k = Some r.
Proof.
  unfold held. rewrite list_elem_of_fmap. split.
  - intros ([k r'] & -> & H%elem_of_map_to_list). by exists k.
  - intros [k H]. exists (k, r). split; [done|]. by apply elem_of_map_to_list.
Qed.

(** The heap after the descendants [done] have been appended. *)
Let state (done : list nat) (r : nat) : option Obj :=
  (λ o, if decide (held r)
        then set_children
               (filter (λ i, hash !! (default None (obj_parent_pk <$> heap0 !! i))
                             = Some r) done) o
        else o) <$> heap0 !! r.

Lemma reset_children_lookup r :
  reset_children self objs !! r = state [] r.
Proof.
  unfold reset_children, state, held. fold hash heap0.
  generalize ((map_to_list hash).*2). intros vs.
  assert (∀ heap : list Obj,
            foldl (λ heap r, alter (set_children []) r heap) heap vs !! r
            = (λ o, if decide (r ∈ vs) then set_children [] o else o)
                <$> heap !! r) as Hfold.
  { induction vs as [|v vs IH]; intros heap; cbn [foldl].
    - destruct (heap !! r); [|done]. osimpl. case_decide as Hin; [|done].
      by apply elem_of_nil in Hin.
    - rewrite IH, list_lookup_alter.
      destruct (decide (v = r)) as [->|Hne].
      + destruct (heap !! r); [|done]. osimpl.
        rewrite (decide_True (P:=r ∈ r :: vs)) by (apply elem_of_cons; by left).
        by destruct (decide (r ∈ vs)).
      + destruct (heap !! r); [|done]. osimpl.
        destruct (decide (r ∈ vs)).
        * by rewrite decide_True by (apply elem_of_cons; by right).
        * rewrite decide_False; [done|]. intros [?|?]%elem_of_cons; congruence. }
  rewrite Hfold. destruct (heap0 !! r); [|done]. osimpl.
  by destruct (decide (r ∈ vs)).
Qed.

(** The loop over the descendants: it either appends every one of them to
    the object its parent key leads to, or stops at the first whose parent
    key is not in the dictionary. *)
Lemma append_loop todo done heap :
  (∀ r, heap !! r = state done r) →
  (∀ i, i ∈ todo → is_Some (heap0 !! i)) →
  if decide (Forall (λ i, is_Some (hash !! default None
                                     (obj_parent_pk <$> heap0 !! i))) todo)
  then ∃ heap', for_each (append_child hash) todo heap = Ok heap'
                ∧ ∀ r, heap' !! r = state (done ++ todo) r
  else for_each (append_child hash) todo heap = Raise AssertionError.
Proof.
  revert done heap. induction todo as [|i todo IH]; intros done heap Hinv Hdom.
  - rewrite decide_True by constructor. exists heap. split; [done|].
    intros r. by rewrite app_nil_r.
  - destruct (Hdom i) as [d Hd]; [apply elem_of_cons; by left|].
    assert (∃ d', heap !! i = Some d' ∧ obj_parent_pk d' = obj_parent_pk d)
      as (d' & Hd' & Hpp).
    { rewrite Hinv. unfold state. rewrite Hd. osimpl.
      eexists. split; [done|]. by destruct (decide (held i)). }
    assert (hash !! default None (obj_parent_pk <$> heap0 !! i)
            = hash !! obj_parent_pk d) as Hi by (by rewrite Hd).
    assert (for_each (append_child hash) (i :: todo) heap
            = heap1 ← append_child hash i heap;
              for_each (append_child hash) todo heap1) as -> by done.
    assert (append_child hash i heap
            = match hash !! obj_parent_pk d with
              | None => Raise AssertionError
              | Some p =>
                  match heap !! p with
                  | Some parent =>
                      match _cached_children parent with
                      | Some l => Ok (<[p := set_children (l ++ [i]) parent]> heap)
                      | None => Raise AttributeError
                      end
                  | None => Raise AttributeError
                  end
              end) as -> by (unfold append_child; by rewrite Hd', Hpp).
    destruct (hash !! obj_parent_pk d) as [p|] eqn:Hp.
    2:{ rewrite decide_False; [done|].
        intros Hall%Forall_cons_1. destruct Hall as [[x Hx] _]. congruence. }
    destruct (hashobjs_lookup _ _ Hp) as (po & Hpo & Hpk).
    assert (held p) as Hheld by (apply held_iff; eauto).
    pose (l := filter (λ i, hash !! (default None (obj_parent_pk <$> heap0 !! i))
                            = Some p) done).
    assert (heap !! p = Some (set_children l po)) as Hhp.
    { rewrite Hinv. unfold state. rewrite Hpo. osimpl. by rewrite decide_True. }
    rewrite Hhp. cbn [_cached_children set_children mbind result_bind].
    assert (∀ r, <[p := set_children (l ++ [i]) (set_children l po)]> heap !! r
                 = state (done ++ [i]) r) as Hinv'.
    { intros r. destruct (decide (p = r)) as [<-|Hne].
      - rewrite list_lookup_insert_eq by (by apply lookup_lt_Some in Hhp).
        unfold state. rewrite Hpo. osimpl. rewrite decide_True by done.
        rewrite filter_app, filter_cons_True, filter_nil by done. done.
      - rewrite list_lookup_insert_ne by done. rewrite Hinv. unfold state.
        destruct (heap0 !! r); [|done]. osimpl.
        destruct (decide (held r)); [|done].
        rewrite filter_app, filter_cons_False, filter_nil, app_nil_r; [done|].
        rewrite Hi. congruence. }
    specialize (IH (done ++ [i]) _ Hinv').
    rewrite <- app_assoc in IH. cbn [app] in IH.
    destruct (decide (Forall _ todo)) as [Hall|Hall].
    + rewrite decide_True by (constructor; [by rewrite Hi|done]).
      apply IH. intros j Hj. apply Hdom, elem_of_cons. by right.
    + rewrite decide_False by (intros Hc%Forall_cons_1; by destruct Hc).
      apply IH. intros j Hj. apply Hdom, elem_of_cons. by right.
Qed.

Lemma refs_lookup i : i ∈ refs objs → ∃ d, heap0 !! i = Some d ∧ d ∈ objs.
Proof.
  unfold refs. rewrite elem_of_seq. intros [H1 H2].
  destruct i as [|i]; [lia|]. simpl.
  destruct (lookup_lt_is_Some_2 objs i) as [d Hd]; [lia|].
  exists d. split; [done|]. by eapply list_elem_of_lookup_2.
Qed.

End loop.

(** C9, counterexample: the parent key [7] of the only descendant is no
    key of the dictionary; [prepopulate] stops at its [assert]. *)
Lemma prepopulate_unmatched_parent_raises :
  prepopulate
    {| obj_pk := Some 1; obj_parent_pk := None; _cached_children := None |}
    [{| obj_pk := Some 2; obj_parent_pk := Some 7; _cached_children := None |}]
  = Raise AssertionError.
Proof. reflexivity. Qed.

(** C9, amended: the keys of the dictionary are the key of the node and
    the keys of the supplied descendants.  When the parent key of every
    descendant is among them, [prepopulate] succeeds and the object held
    under each key lists exactly the descendants whose parent key it is, in
    the order of the queryset (the empty list when there is none).  When
    the parent key of some descendant is not among them, [prepopulate]
    fails with [AssertionError]: nothing is defaulted to the node. *)
Theorem prepopulate_adjacency self objs :
  (∀ key, is_Some (hashobjs self objs !! key)
          ↔ key ∈ obj_pk self :: (obj_pk <$> objs))
  ∧ ((∀ d, d ∈ objs → is_Some (hashobjs self objs !! obj_parent_pk d)) →
     ∃ heap,
       prepopulate self objs = Ok heap
       ∧ ∀ key, key ∈ obj_pk self :: (obj_pk <$> objs) →
           children_of self objs heap key = Some (listed_under self objs key))
  ∧ ((∃ d, d ∈ objs ∧ hashobjs self objs !! obj_parent_pk d = None) →
     prepopulate self objs = Raise AssertionError).
Proof.
  split; [apply hashobjs_keys|].
  pose proof (append_loop self objs (refs objs) [] (reset_children self objs)
                (reset_children_lookup self objs)) as Hloop.
  assert (∀ i, i ∈ refs objs → is_Some ((self :: objs) !! i)) as Hdom.
  { intros i Hi. destruct (refs_lookup self objs i Hi) as (d & Hd & _). by eexists. }
  specialize (Hloop Hdom). unfold prepopulate. split.
  - intros Hknown. rewrite decide_True in Hloop.
    2:{ apply Forall_forall. intros i Hi.
        destruct (refs_lookup self objs i Hi) as (d & Hd & Hin).
        rewrite Hd. by apply Hknown. }
    destruct Hloop as (heap & Hrun & Hheap). exists heap. split; [done|].
    intros key [r Hr]%hashobjs_keys. unfold children_of. rewrite Hr.
    cbn [mbind option_bind]. rewrite Hheap.
    destruct (hashobjs_lookup self objs key r Hr) as (po & Hpo & Hpk).
    rewrite Hpo. cbn [fmap option_fmap option_map app mbind option_bind].
    rewrite decide_True by (apply list_elem_of_fmap; exists (key, r);
                            split; [done|by apply elem_of_map_to_list]).
    cbn [_cached_children set_children]. f_equal. unfold listed_under.
    apply filter_ext_elem. intros i Hi.
    destruct (refs_lookup self objs i Hi) as (d & Hd & _). rewrite Hd.
    cbn [fmap option_fmap option_map default]. split.
    + intros Hd'. destruct (hashobjs_lookup self objs _ r Hd') as (po' & Hpo' & Hpk').
      rewrite Hpo in Hpo'. simplify_eq. unfold id in *. congruence.
    + intros [= ->]. done.
  - intros (d & Hin & Hnone). rewrite decide_False in Hloop; [done|].
    intros Hall. apply list_elem_of_lookup in Hin as [i Hi].
    assert (S i ∈ refs objs) as Href.
    { unfold refs. apply elem_of_seq. apply lookup_lt_Some in Hi. lia. }
    pose proof (proj1 (Forall_forall _ _) Hall _ Href) as [x Hx].
    change ((self :: objs) !! S i) with (objs !! i) in Hx.
    rewrite Hi in Hx. simpl in Hx. congruence.
Qed.

Lemma prepopulate_adjacency_witness :
  let self := {| obj_pk := Some 1; obj_parent_pk := None;
                 _cached_children := None |} in
  let objs := [{| obj_pk := Some 2; obj_parent_pk := Some 1;
                  _cached_children := None |};
               {| obj_pk := Some 3; obj_parent_pk := Some 2;
                  _cached_children := None |};
               {| obj_pk := Some 4; obj_parent_pk := Some 1;
                  _cached_children := None |}] in
  ∃ heap,
    prepopulate self objs = Ok heap
    ∧ ∀ key, key ∈ obj_pk self :: (obj_pk <$> objs) →
        children_of self objs heap key = Some (listed_under self objs key).
Proof.
  intros self objs. apply (prepopulate_adjacency self objs).
  intros d Hd. repeat (apply elem_of_cons in Hd as [->|Hd]; [by eexists|]).
  by apply elem_of_nil in Hd.
Defined.

End prepopulate.

(** ** Insertion without conflicts *)

Lemma key_taken_sel_key tbl t :
  key_taken tbl t ↔ sel_key t ∈ sel_key <$> (triple <$> tbl).
Proof.
  rewrite key_taken_iff, list_elem_of_fmap. destruct t as [[d c] p]. split.
  - intros (r & Hr & Hp & Hc). exists (triple r). split.
    + unfold sel_key, sel_parent, sel_child, triple in *. simpl in *. congruence.
    + apply list_elem_of_fmap. by exists r.
  - intros (t' & Hk & (r & -> & Hr)%list_elem_of_fmap). exists r.
    unfold sel_key, sel_parent, sel_child, triple in *. simpl in *.
    by simplify_eq.
Qed.

Lemma triple_new_row seq t : triple (new_row seq t) = t.
Proof. by destruct t as [[??]?]. Qed.

(** When no key of the statement is taken and no two of its rows share a
    key, every row is stored, with or without [ignore]. *)
Lemma insert_rows_fresh ignore ts tbl seq :
  (∀ t, t ∈ ts → ¬ key_taken tbl t) →
  NoDup (sel_key <$> ts) →
  ∃ tbl' seq',
    insert_rows ignore ts tbl seq = Ok (tbl', seq')
    ∧ triple <$> tbl' = (triple <$> tbl) ++ ts.
Proof.
  revert tbl seq. induction ts as [|t ts IH]; intros tbl seq Hfree Hnd.
  - exists tbl, seq. by rewrite app_nil_r.
  - rewrite fmap_cons in Hnd. apply NoDup_cons in Hnd as [Ht Hnd]. simpl.
    rewrite decide_False by (apply Hfree, elem_of_cons; by left).
    destruct (IH (tbl ++ [new_row seq t]) (seq + 1)) as (tbl' & seq' & -> & Htr).
    + intros t' Ht' [Hk|Hk]%key_taken_app.
      * by apply (Hfree t'); [apply elem_of_cons; right|].
      * apply key_taken_sel_key in Hk. simpl in Hk.
        rewrite triple_new_row in Hk. apply list_elem_of_singleton in Hk.
        apply Ht. rewrite <- Hk. by apply list_elem_of_fmap_2.
    + done.
    + exists tbl', seq'. split; [done|].
      rewrite Htr, fmap_app. simpl. rewrite triple_new_row.
      by rewrite <- app_assoc.
Qed.

Lemma createlink_fresh vendor self db :
  (∀ t, t ∈ union (createlink_selects (closure db) self) →
        ¬ key_taken (closure db) t) →
  NoDup (sel_key <$> union (createlink_selects (closure db) self)) →
  ∃ db', _closure_createlink vendor self db = Ok db'
         ∧ nodes db' = nodes db
         ∧ triples db' = triples db
                         ++ union (createlink_selects (closure db) self).
Proof.
  intros Hfree Hnd. rewrite createlink_unfold.
  destruct (insert_rows_fresh (bool_decide (dedup_vendor vendor)) _ _
              (closure_seq db) Hfree Hnd) as (tbl' & seq' & -> & Htr).
  eexists. split; [done|]. by split.
Qed.

(** ** Ancestors *)

Lemma lookup_node_Some T x n :
  lookup_node T x = Some n → n ∈ T ∧ pk n = x.
Proof.
  unfold lookup_node. intros H%head_Some_elem_of.
  by apply list_elem_of_filter in H as [??].
Qed.

Lemma lookup_node_elem_of T n :
  NoDup (pk <$> T) → n ∈ T → lookup_node T (pk n) = Some n.
Proof.
  unfold lookup_node. induction T as [|m T IH]; intros Hnd Hn.
  - by apply elem_of_nil in Hn.
  - rewrite fmap_cons in Hnd. apply NoDup_cons in Hnd as [Hm Hnd].
    rewrite filter_cons. apply elem_of_cons in Hn as [->|Hn].
    + by rewrite decide_True.
    + rewrite decide_False; [by apply IH|].
      intros Heq. apply Hm. rewrite Heq. by apply list_elem_of_fmap_2.
Qed.

Lemma lookup_node_None T x : x ∉ pk <$> T → lookup_node T x = None.
Proof.
  intros H. unfold lookup_node. rewrite filter_none; [done|].
  intros n Hn <-. apply H. by apply list_elem_of_fmap_2.
Qed.

Lemma parent_step_Some T x p :
  parent_step T x = Some p ↔
  ∃ n, lookup_node T x = Some n ∧ parent_id n = Some p ∧ p ≠ 0
       ∧ p ∈ pk <$> T.
Proof.
  unfold parent_step.
  destruct (lookup_node T x) as [n|]; cbn [mbind option_bind].
  2:{ split; [done|]. by intros (? & ? & _). }
  destruct (parent_id n) as [q|] eqn:Eq; cbn [mbind option_bind].
  2:{ split; [done|]. intros (? & ? & ? & _). congruence. }
  unfold truthy. destruct (Z.eqb_spec q 0) as [->|Hq]; cbn [negb andb].
  { split; [done|]. intros (? & ? & ? & ? & _). congruence. }
  case_bool_decide as Hin.
  - split.
    + intros [= ->]. by exists n.
    + intros (? & ? & ? & _). congruence.
  - split; [done|]. intros (? & ? & ? & ? & ?). destruct Hin. congruence.
Qed.

Lemma up_S_r T k x : up T (S k) x = y ← up T k x; parent_step T y.
Proof.
  revert x. induction k as [|k IH]; intros x.
  - simpl. by destruct (parent_step T x).
  - change (up T (S (S k)) x) with (p ← parent_step T x; up T (S k) p).
    destruct (parent_step T x) as [p|] eqn:E; simpl; [|by rewrite E].
    rewrite E. simpl. apply IH.
Qed.

Lemma up_add T j k x : up T (j + k) x = y ← up T j x; up T k y.
Proof.
  revert x. induction j as [|j IH]; intros x; [done|].
  simpl. destruct (parent_step T x); simpl; [apply IH|done].
Qed.

(** The steps only look at keys and parent keys. *)
Lemma parent_step_pointers T T' x :
  pointers T = pointers T' → parent_step T x = parent_step T' x.
Proof.
  intros H. unfold parent_step.
  assert (pk <$> T = pk <$> T') as Hpk.
  { apply (f_equal (fmap fst)) in H. unfold pointers in H.
    by rewrite <- !list_fmap_compose in H. }
  assert (parent_id <$> lookup_node T x = parent_id <$> lookup_node T' x) as Hl.
  { unfold lookup_node. clear Hpk. revert T' H.
    induction T as [|n T IH]; intros [|n' T'] H; try done.
    unfold pointers in H. rewrite !fmap_cons in H. injection H as Hk Hp H.
    rewrite !filter_cons, Hk.
    destruct (decide (pk n' = x)); simpl; [by rewrite Hp|]. by apply IH. }
  rewrite Hpk.
  destruct (lookup_node T x) as [n|], (lookup_node T' x) as [n'|];
    simpl in *; simplify_eq; try done.
  by rewrite Hl.
Qed.

Lemma up_pointers T T' k x :
  pointers T = pointers T' → up T k x = up T' k x.
Proof.
  intros H. revert x. induction k as [|k IH]; intros x; [done|].
  simpl. rewrite (parent_step_pointers T T' x H).
  destruct (parent_step T' x); simpl; [apply IH|done].
Qed.

Lemma level_sound_step T x p n m :
  level_sound T → NoDup (pk <$> T) →
  parent_step T x = Some p →
  lookup_node T x = Some n → lookup_node T p = Some m →
  level m < level n.
Proof.
  intros Hs Hnd (n' & Hn' & Hpar & Hp0 & Hin)%parent_step_Some Hn Hm.
  rewrite Hn in Hn'. injection Hn' as <-.
  apply lookup_node_Some in Hn as [Hn _].
  apply lookup_node_Some in Hm as [Hm <-].
  unfold level_sound in Hs. rewrite Forall_forall in Hs.
  specialize (Hs n Hn). rewrite Forall_forall in Hs. by apply (Hs m).
Qed.

Lemma parent_step_in T x p : parent_step T x = Some p → x ∈ pk <$> T ∧ p ∈ pk <$> T.
Proof.
  intros (n & [Hn <-]%lookup_node_Some & _ & _ & Hp)%parent_step_Some.
  split; [by apply list_elem_of_fmap_2|done].
Qed.

Lemma lookup_node_is_Some T x :
  NoDup (pk <$> T) → x ∈ pk <$> T → ∃ n, lookup_node T x = Some n.
Proof.
  intros Hnd (n & -> & Hn)%list_elem_of_fmap. exists n.
  by apply lookup_node_elem_of.
Qed.

Lemma level_sound_up T k x a n m :
  level_sound T → NoDup (pk <$> T) →
  up T (S k) x = Some a →
  lookup_node T x = Some n → lookup_node T a = Some m →
  level m < level n.
Proof.
  intros Hs Hnd. revert x n. induction k as [|k IH]; intros x n Hup Hn Hm.
  - simpl in Hup. destruct (parent_step T x) as [p|] eqn:E; [|done].
    simpl in Hup. simplify_eq. by eapply level_sound_step.
  - change (up T (S (S k)) x) with (p ← parent_step T x; up T (S k) p) in Hup.
    destruct (parent_step T x) as [p|] eqn:E; [|done]. simpl in Hup.
    destruct (parent_step_in _ _ _ E) as [_ Hp].
    destruct (lookup_node_is_Some T p Hnd Hp) as [np Hnp].
    pose proof (level_sound_step T x p n np Hs Hnd E Hn Hnp).
    pose proof (IH p np Hup Hnp Hm). lia.
Qed.

Lemma level_sound_acyclic T :
  level_sound T → NoDup (pk <$> T) → acyclic T.
Proof.
  intros Hs Hnd x k Hup.
  assert (x ∈ pk <$> T) as Hx.
  { simpl in Hup. destruct (parent_step T x) eqn:E; [|done].
    by apply parent_step_in in E as [? _]. }
  destruct (lookup_node_is_Some T x Hnd Hx) as [n Hn].
  pose proof (level_sound_up T k x x n n Hs Hnd Hup Hn Hn). lia.
Qed.

(** In a tree without cycles the distance to an ancestor is unique. *)
Lemma up_distance_unique T j k x a :
  acyclic T → up T j x = Some a → up T k x = Some a → j = k.
Proof.
  intros Hac. revert k x. induction j as [|j IH]; intros k x Hj Hk.
  - simpl in Hj. simplify_eq. destruct k; [done|]. by apply Hac in Hk.
  - destruct k as [|k].
    + simpl in Hk. simplify_eq. by apply Hac in Hj.
    + simpl in Hj, Hk. destruct (parent_step T x) as [p|]; [|done].
      simpl in *. f_equal. by eapply IH.
Qed.

(** ** One [_closure_createlink] on exact rows *)

Lemma exact_on_iff T D D' rows :
  (∀ y, D y ↔ D' y) → exact_on T D rows → exact_on T D' rows.
Proof.
  intros HD [Hu He]. split; [done|]. intros d x a. rewrite He, HD. done.
Qed.

Lemma elem_of_triples db t :
  t ∈ triples db ↔ ∃ r, r ∈ closure db ∧ triple r = t.
Proof. unfold triples. rewrite list_elem_of_fmap. naive_solver. Qed.

Lemma parent_step_lookup T x m :
  lookup_node T x = Some m →
  parent_step T x =
  p ← parent_id m;
  if truthy (Some p) && bool_decide (p ∈ pk <$> T) then Some p else None.
Proof. intros H. unfold parent_step. by rewrite H. Qed.

(** Linking a node that has no row yet, after its parent: its rows become
    exact and the others stay. *)
Lemma createlink_exact vendor T D db self :
  exact_on T D (triples db) →
  acyclic T →
  (∀ y, D y → y ∈ pk <$> T) →
  ¬ D (pk self) →
  (∃ m, lookup_node T (pk self) = Some m ∧ parent_id m = parent_id self) →
  (∀ p, parent_step T (pk self) = Some p → D p) →
  ∃ db', _closure_createlink vendor self db = Ok db'
         ∧ nodes db' = nodes db
         ∧ exact_on T (λ y, D y ∨ y = pk self) (triples db').
Proof.
  intros [Hu He] Hac HD Hfresh (m & Hm & Hpar) Hord.
  pose proof (parent_step_lookup _ _ _ Hm) as Hstep. rewrite Hpar in Hstep.
  set (ts := union (createlink_selects (closure db) self)).
  assert (∀ t, t ∈ ts → sel_child t = pk self) as Hchild
    by (intros t; apply createlink_rows_child).
  assert (∀ d a, (d, pk self, a) ∈ ts ↔
                 ∃ k : nat, d = Z.of_nat k ∧ up T k (pk self) = Some a) as HA.
  { intros d a. unfold ts. rewrite elem_of_createlink_rows. split.
    - intros [Heq|(Htr & r & Hr & Hc & Heq)].
      + unfold self_link in Heq. simplify_eq. by exists 0%nat.
      + simplify_eq.
        assert ((depth r, child r, parent r) ∈ triples db) as Hin
          by (apply elem_of_triples; by exists r).
        apply He in Hin as (HDp & k & Hk & Hup).
        exists (S k). split; [lia|]. simpl. rewrite Hstep, <- Hc.
        cbn [mbind option_bind]. rewrite <- Hc in Htr. rewrite Htr.
        rewrite bool_decide_true by (by apply HD). done.
    - intros (k & -> & Hup). destruct k as [|k].
      + simpl in Hup. simplify_eq. by left.
      + right. simpl in Hup.
        destruct (parent_step T (pk self)) as [p|] eqn:Ep; [|done].
        simpl in Hup. specialize (Hord _ eq_refl).
        destruct (parent_id self) as [q|] eqn:Eq; [|done].
        cbn [mbind option_bind] in Hstep.
        destruct (truthy (Some q)) eqn:Et; [|done].
        destruct (bool_decide (q ∈ pk <$> T)); [|done].
        simpl in Hstep. injection Hstep as ->. split; [done|].
        assert ((Z.of_nat k, q, a) ∈ triples db) as Hin
          by (apply He; split; [done|by exists k]).
        apply elem_of_triples in Hin as (r & Hr & Htr).
        unfold triple in Htr. simplify_eq. exists r.
        split_and!; [done|done|]. f_equal. f_equal. lia. }
  assert (∀ t, t ∈ ts → ¬ key_taken (closure db) t) as Hfree.
  { intros t Ht (r & Hr & _ & Hc)%key_taken_iff. apply Hfresh.
    assert ((depth r, child r, parent r) ∈ triples db) as Hin
      by (apply elem_of_triples; by exists r).
    apply He in Hin as [HDc _]. by rewrite <- (Hchild t Ht), <- Hc. }
  assert (NoDup (sel_key <$> ts)) as Hnd.
  { apply NoDup_fmap_2_strong; [|apply NoDup_remove_dups].
    intros [[d1 c1] a1] [[d2 c2] a2] H1 H2 Hk.
    pose proof (Hchild _ H1) as E1. pose proof (Hchild _ H2) as E2.
    unfold sel_key, sel_child, sel_parent in *. simpl in *. simplify_eq.
    apply HA in H1 as (k1 & -> & Hup1). apply HA in H2 as (k2 & -> & Hup2).
    by rewrite (up_distance_unique T k1 k2 _ _ Hac Hup1 Hup2). }
  destruct (createlink_fresh vendor self db Hfree Hnd) as (db' & Hrun & Hn & Htr).
  exists db'. split_and!; [done|done|]. rewrite Htr. fold ts. split.
  - unfold unique_keys. rewrite fmap_app. apply NoDup_app. split_and!; [done| |done].
    intros key Hk1 (t & -> & Ht)%list_elem_of_fmap.
    apply (Hfree t Ht). by apply key_taken_sel_key.
  - intros d y a. rewrite elem_of_app, He. split.
    + intros [[HDy Hk]|Hin]; [by split; [left|]|].
      pose proof (Hchild _ Hin) as Hc. unfold sel_child in Hc. simpl in Hc.
      subst y. split; [by right|]. by apply HA.
    + intros [[HDy| ->] Hk]; [by left|]. right. by apply HA.
Qed.

(** ** A loop of [_closure_createlink] in parent-first order *)

Lemma for_each_createlink_exact vendor T l :
  ∀ D db,
    exact_on T D (triples db) →
    acyclic T →
    (∀ y, D y → y ∈ pk <$> T) →
    NoDup (pk <$> l) →
    (∀ n, n ∈ l → ¬ D (pk n)) →
    (∀ n, n ∈ l →
       ∃ m, lookup_node T (pk n) = Some m ∧ parent_id m = parent_id n) →
    (∀ l1 n l2 p, l = l1 ++ n :: l2 → parent_step T (pk n) = Some p →
                  D p ∨ p ∈ pk <$> l1) →
    ∃ db', for_each (_closure_createlink vendor) l db = Ok db'
           ∧ nodes db' = nodes db
           ∧ exact_on T (λ y, D y ∨ y ∈ pk <$> l) (triples db').
Proof.
  induction l as [|n l IH]; intros D db Hex Hac HD Hnd Hfresh Hrow Hord.
  - exists db. split_and!; [done|done|].
    eapply exact_on_iff; [|done]. intros y. rewrite fmap_nil, elem_of_nil. tauto.
  - rewrite fmap_cons in Hnd. apply NoDup_cons in Hnd as [Hn Hnd].
    destruct (createlink_exact vendor T D db n Hex Hac HD) as (db1 & Hrun & Hn1 & Hex1).
    + apply Hfresh, elem_of_cons. by left.
    + apply Hrow, elem_of_cons. by left.
    + intros p Hp. destruct (Hord [] n l p eq_refl Hp) as [?|Hin]; [done|].
      by apply elem_of_nil in Hin.
    + destruct (IH (λ y, D y ∨ y = pk n) db1 Hex1 Hac) as (db' & Hrun' & Hn' & Hex').
      * intros y [Hy| ->]; [by apply HD|].
        destruct (Hrow n) as (m & [Hm <-]%lookup_node_Some & _);
          [apply elem_of_cons; by left|]. by apply list_elem_of_fmap_2.
      * done.
      * intros m Hm [HDm|Heq].
        -- apply (Hfresh m); [apply elem_of_cons; by right|done].
        -- apply Hn. rewrite <- Heq. by apply list_elem_of_fmap_2.
      * intros m Hm. apply Hrow, elem_of_cons. by right.
      * intros l1 m l2 p -> Hp.
        destruct (Hord (n :: l1) m l2 p eq_refl Hp) as [?|Hin]; [by left; left|].
        rewrite fmap_cons in Hin. apply elem_of_cons in Hin as [->|?]; [left|]; auto.
      * exists db'. split_and!.
        -- simpl. by rewrite Hrun.
        -- congruence.
        -- eapply exact_on_iff; [|done]. intros y. rewrite fmap_cons, elem_of_cons.
           tauto.
Qed.

(** ** [order_by] *)

Lemma key_le_trans {A : Type} (key : A → Z) : Transitive (key_le key).
Proof. intros a b c. unfold key_le. lia. Qed.

Lemma key_le_total {A : Type} (key : A → Z) : Total (key_le key).
Proof. intros a b. unfold key_le. lia. Qed.

Lemma order_by_Permutation {A : Type} (key : A → Z) (l : list A) :
  order_by key l ≡ₚ l.
Proof. apply merge_sort_Permutation. Qed.

Lemma order_by_sorted {A : Type} (key : A → Z) (l : list A) :
  StronglySorted (key_le key) (order_by key l).
Proof.
  apply StronglySorted_merge_sort; [apply key_le_trans|apply key_le_total].
Qed.

(** In a sorted list a row with a smaller key stands before. *)
Lemma sorted_before {A : Type} (key : A → Z) (l1 l2 : list A) n m :
  StronglySorted (key_le key) (l1 ++ n :: l2) →
  m ∈ l1 ++ n :: l2 → key m < key n → m ∈ l1.
Proof.
  intros Hs Hm Hlt. apply elem_of_app in Hm as [Hm|Hm]; [done|].
  apply StronglySorted_app_1_r in Hs. apply StronglySorted_inv in Hs as [_ Hall].
  apply elem_of_cons in Hm as [->|Hm]; [lia|].
  rewrite Forall_forall in Hall. specialize (Hall m Hm). unfold key_le in Hall. lia.
Qed.

(** ** [rebuildtable] *)

(** On a table with unique keys and levels that grow along the parent
    pointers, the rebuild succeeds on every backend and gives every node
    its self-link and one row per ancestor. *)
Lemma rebuildtable_exact vendor db :
  NoDup (pk <$> nodes db) →
  level_sound (nodes db) →
  ∃ db', rebuildtable vendor db = Ok db'
         ∧ nodes db' = nodes db
         ∧ exact_on (nodes db) (λ y, y ∈ pk <$> nodes db) (triples db').
Proof.
  intros Hnd Hs. unfold rebuildtable.
  set (T := nodes db) in *.
  set (db0 := {| nodes := T; closure := []; closure_seq := closure_seq db |}).
  pose proof (order_by_Permutation level T) as Hperm.
  destruct (for_each_createlink_exact vendor T (order_by level T)
              (λ _, False) db0) as (db' & Hrun & Hn & Hex).
  - split; [constructor|]. intros d x a. unfold triples. simpl.
    rewrite elem_of_nil. tauto.
  - by apply level_sound_acyclic.
  - done.
  - by rewrite Hperm.
  - tauto.
  - intros n Hn. exists n. split; [|done]. apply lookup_node_elem_of; [done|].
    by rewrite <- Hperm.
  - intros l1 n l2 p Hl Hp. right.
    destruct (parent_step_in _ _ _ Hp) as [_ Hpin].
    destruct (lookup_node_is_Some T p Hnd Hpin) as [m Hm].
    assert (n ∈ T) as HnT.
    { rewrite <- Hperm, Hl. apply elem_of_app. right. apply elem_of_cons. by left. }
    pose proof (level_sound_step T (pk n) p n m Hs Hnd Hp
                  (lookup_node_elem_of T n Hnd HnT) Hm) as Hlt.
    apply lookup_node_Some in Hm as [HmT <-].
    apply list_elem_of_fmap_2. apply (sorted_before level l1 l2 n m).
    + rewrite <- Hl. apply order_by_sorted.
    + by rewrite <- Hl, Hperm.
    + done.
  - exists db'. split_and!; [done|done|].
    eapply exact_on_iff; [|done]. intros y. simpl. rewrite Hperm. tauto.
Qed.

(** Two exact row sets for the same pointers hold the same rows. *)
Lemma exact_on_same_rows T T' D D' rows rows' :
  pointers T = pointers T' →
  (∀ y, D y ↔ D' y) →
  exact_on T D rows → exact_on T' D' rows' → same_rows rows rows'.
Proof.
  intros Hp HD [_ He] [_ He'].
  split; intros [[d x] a] Hin.
  - apply He'. apply He in Hin as (HDx & k & -> & Hup).
    split; [by apply HD|]. exists k. split; [done|].
    by rewrite <- (up_pointers T T' k x Hp).
  - apply He. apply He' in Hin as (HDx & k & -> & Hup).
    split; [by apply HD|]. exists k. split; [done|].
    by rewrite (up_pointers T T' k x Hp).
Qed.

Lemma rebuilt_triples_exact T :
  NoDup (pk <$> T) → level_sound T →
  exact_on T (λ y, y ∈ pk <$> T) (rebuilt_triples T).
Proof.
  intros Hnd Hs. unfold rebuilt_triples.
  destruct (rebuildtable_exact "sqlite"
              {| nodes := T; closure := []; closure_seq := 1 |} Hnd Hs)
    as (db' & -> & _ & Hex).
  done.
Qed.

(** X6: on a node table with unique keys and levels that grow along the
    parent pointers, [rebuildtable] succeeds on every backend and stores,
    for every node, its self-link and one row per ancestor at the right
    distance, and nothing else. *)
Theorem rebuildtable_rows vendor db :
  NoDup (pk <$> nodes db) →
  level_sound (nodes db) →
  ∃ db', rebuildtable vendor db = Ok db'
         ∧ nodes db' = nodes db
         ∧ unique_keys (triples db')
         ∧ ∀ d x a, (d, x, a) ∈ triples db' ↔
                    x ∈ pk <$> nodes db
                    ∧ ∃ k : nat, d = Z.of_nat k ∧ up (nodes db) k x = Some a.
Proof.
  intros Hnd Hs.
  destruct (rebuildtable_exact vendor db Hnd Hs) as (db' & Hrun & Hn & Hu & He).
  by exists db'.
Qed.

Lemma rebuildtable_rows_witness :
  let db := {| nodes := [{| pk := 1; parent_id := None; level := 0 |};
                         {| pk := 2; parent_id := Some 1; level := 1 |}];
               closure := []; closure_seq := 1 |} in
  ∃ db', rebuildtable "oracle" db = Ok db'
         ∧ ∀ d x a, (d, x, a) ∈ triples db' ↔
                    x ∈ pk <$> nodes db
                    ∧ ∃ k : nat, d = Z.of_nat k ∧ up (nodes db) k x = Some a.
Proof.
  intros db. destruct (rebuildtable_rows "oracle" db) as (db' & H & _ & _ & He).
  - compute_done.
  - compute_done.
  - by exists db'.
Defined.

(** X4: on such a table a second [rebuildtable] gives the rows of the
    first. *)
Theorem rebuildtable_twice_same_rows vendor vendor' db :
  NoDup (pk <$> nodes db) →
  level_sound (nodes db) →
  ∃ db1 db2,
    rebuildtable vendor db = Ok db1
    ∧ rebuildtable vendor' db1 = Ok db2
    ∧ same_rows (triples db1) (triples db2).
Proof.
  intros Hnd Hs.
  destruct (rebuildtable_exact vendor db Hnd Hs) as (db1 & Hrun & Hn & Hex).
  rewrite <- Hn in Hnd, Hs.
  destruct (rebuildtable_exact vendor' db1 Hnd Hs) as (db2 & Hrun' & _ & Hex').
  exists db1, db2. split_and!; [done|done|].
  eapply exact_on_same_rows; [| |exact Hex|exact Hex']; [by rewrite Hn|].
  intros y. by rewrite Hn.
Qed.

Lemma rebuildtable_twice_same_rows_witness :
  let db := {| nodes := [{| pk := 1; parent_id := None; level := 0 |};
                         {| pk := 2; parent_id := Some 1; level := 1 |};
                         {| pk := 3; parent_id := Some 2; level := 2 |}];
               closure := [new_row 5 (7, 3, 1)]; closure_seq := 6 |} in
  ∃ db1 db2,
    rebuildtable "sqlite" db = Ok db1
    ∧ rebuildtable "oracle" db1 = Ok db2
    ∧ same_rows (triples db1) (triples db2).
Proof.
  intros db. apply (rebuildtable_twice_same_rows "sqlite" "oracle" db);
    compute_done.
Defined.

Lemma exact_on_transfer T D rows rows' :
  unique_keys rows' → same_rows rows rows' →
  exact_on T D rows → exact_on T D rows'.
Proof.
  intros Hu [H1 H2] [_ He]. split; [done|]. intros d x a. rewrite <- He.
  split; [apply H2|apply H1].
Qed.

(** * Queries and hooks on a consistent table *)

(** ** Consistent tables *)

Lemma consistent_exact db :
  consistent db → exact_on (nodes db) (λ y, y ∈ pk <$> nodes db) (triples db).
Proof.
  intros (Hnd & Hs & Hu & Hrows).
  apply (exact_on_transfer _ _ (rebuilt_triples (nodes db))); [done| |].
  - destruct Hrows. by split.
  - by apply rebuilt_triples_exact.
Qed.

Lemma consistent_acyclic db : consistent db → acyclic (nodes db).
Proof. intros (Hnd & Hs & _). by apply level_sound_acyclic. Qed.

Lemma exact_consistent db :
  NoDup (pk <$> nodes db) → level_sound (nodes db) →
  exact_on (nodes db) (λ y, y ∈ pk <$> nodes db) (triples db) →
  consistent db.
Proof.
  intros Hnd Hs Hex. split_and!; [done|done|by destruct Hex|].
  eapply exact_on_same_rows; [| |exact Hex|by apply rebuilt_triples_exact]; done.
Qed.

(** A closure row of a consistent table, read as a distance. *)
Lemma consistent_row db r :
  consistent db → r ∈ closure db →
  child r ∈ pk <$> nodes db
  ∧ ∃ k : nat, depth r = Z.of_nat k ∧ up (nodes db) k (child r) = Some (parent r).
Proof.
  intros Hc Hr. destruct (consistent_exact db Hc) as [_ He].
  apply He. apply elem_of_triples. by exists r.
Qed.

Lemma consistent_row_of db (k : nat) x a :
  consistent db → x ∈ pk <$> nodes db → up (nodes db) k x = Some a →
  ∃ r, r ∈ closure db ∧ child r = x ∧ parent r = a ∧ depth r = Z.of_nat k.
Proof.
  intros Hc Hx Hup. destruct (consistent_exact db Hc) as [_ He].
  assert ((Z.of_nat k, x, a) ∈ triples db) as Hin
    by (apply He; split; [done|by exists k]).
  apply elem_of_triples in Hin as (r & Hr & Htr). exists r.
  unfold triple in Htr. by simplify_eq.
Qed.

Lemma up_target_in T k x a : up T k x = Some a → x ∈ pk <$> T → a ∈ pk <$> T.
Proof.
  revert x. induction k as [|k IH]; intros x Hup Hx.
  - simpl in Hup. by simplify_eq.
  - simpl in Hup. destruct (parent_step T x) as [p|] eqn:Ep; [|done].
    simpl in Hup. apply (IH p); [done|]. by apply parent_step_in in Ep as [_ ?].
Qed.

(** ** Joins with a depth bound *)

Lemma elem_of_joined_rows_depth tbl self d n n' r :
  (n', r) ∈ joined_rows tbl self d n ↔
  n' = n ∧ r ∈ tbl ∧ child r = pk n ∧ parent r = pk self ∧ depth_ok d r.
Proof.
  unfold joined_rows. rewrite list_elem_of_bind. split.
  - intros (r0 & Hin & Hr0).
    case_decide as Hc; [|by apply elem_of_nil in Hin].
    apply list_elem_of_singleton in Hin as [= -> ->]. naive_solver.
  - intros (-> & Hr & Hc & Hp & Hd). exists r. split; [|done].
    rewrite decide_True by (split_and!; done). by apply list_elem_of_singleton.
Qed.

Lemma elem_of_joined_parents tbl self d n n' r :
  (n', r) ∈ joined_parents tbl self d n ↔
  n' = n ∧ r ∈ tbl ∧ parent r = pk n ∧ child r = pk self ∧ depth_ok d r.
Proof.
  unfold joined_parents. rewrite list_elem_of_bind. split.
  - intros (r0 & Hin & Hr0).
    case_decide as Hc; [|by apply elem_of_nil in Hin].
    apply list_elem_of_singleton in Hin as [= -> ->]. naive_solver.
  - intros (-> & Hr & Hc & Hp & Hd). exists r. split; [|done].
    rewrite decide_True by (split_and!; done). by apply list_elem_of_singleton.
Qed.

Lemma elem_of_descendants_qs_depth db self include_self d n r :
  (n, r) ∈ descendants_qs db self include_self d ↔
  n ∈ nodes db ∧ r ∈ closure db ∧ child r = pk n ∧ parent r = pk self
  ∧ depth_ok d r ∧ (include_self = true ∨ pk n ≠ pk self).
Proof.
  unfold descendants_qs.
  assert (∀ n r, (n, r) ∈ (n ← nodes db; joined_rows (closure db) self d n)
                 ↔ n ∈ nodes db ∧ r ∈ closure db ∧ child r = pk n
                   ∧ parent r = pk self ∧ depth_ok d r) as Hjoin.
  { intros n' r'. rewrite list_elem_of_bind.
    setoid_rewrite elem_of_joined_rows_depth. naive_solver. }
  destruct include_self.
  - rewrite Hjoin. naive_solver.
  - rewrite list_elem_of_filter, Hjoin. simpl. naive_solver.
Qed.

Lemma elem_of_ancestors_qs db self include_self d n r :
  (n, r) ∈ ancestors_qs db self include_self d ↔
  n ∈ nodes db ∧ r ∈ closure db ∧ parent r = pk n ∧ child r = pk self
  ∧ depth_ok d r ∧ (include_self = true ∨ pk n ≠ pk self).
Proof.
  unfold ancestors_qs.
  assert (∀ n r, (n, r) ∈ (n ← nodes db; joined_parents (closure db) self d n)
                 ↔ n ∈ nodes db ∧ r ∈ closure db ∧ parent r = pk n
                   ∧ child r = pk self ∧ depth_ok d r) as Hjoin.
  { intros n' r'. rewrite list_elem_of_bind.
    setoid_rewrite elem_of_joined_parents. naive_solver. }
  destruct include_self.
  - rewrite Hjoin. naive_solver.
  - rewrite list_elem_of_filter, Hjoin. simpl. naive_solver.
Qed.

(** A unique key leaves at most one row to join with a node. *)
Lemma join_at_most_one (tbl : list Closure) (P : Closure → Prop)
    `{!∀ r, Decision (P r)} (n : Node) (key : Z * Z) :
  NoDup (sel_key <$> (triple <$> tbl)) →
  (∀ r, P r → sel_key (triple r) = key) →
  (r ← tbl; if decide (P r) then [(n, r)] else []) = []
  ∨ ∃ r, (r ← tbl; if decide (P r) then [(n, r)] else []) = [(n, r)].
Proof.
  intros Hnd Hkey. induction tbl as [|r tbl IH]; [by left|].
  rewrite !fmap_cons in Hnd. apply NoDup_cons in Hnd as [Hr Hnd].
  rewrite bind_cons. case_decide as Hc; [|by apply IH].
  right. exists r.
  destruct (tbl ≫= _) as [|[n' r'] rest] eqn:E; [done|]. exfalso.
  assert ((n', r') ∈ (r ← tbl; if decide (P r) then [(n, r)] else [])) as Hin
    by (rewrite E; apply elem_of_cons; by left).
  apply list_elem_of_bind in Hin as (r0 & Hin & Hr0).
  case_decide as Hc'; [|by apply elem_of_nil in Hin].
  apply list_elem_of_singleton in Hin as [= -> ->].
  apply Hr. rewrite (Hkey r Hc), <- (Hkey r0 Hc').
  by apply list_elem_of_fmap_2, list_elem_of_fmap_2.
Qed.

Lemma join_NoDup (T : list Node) (join : Node → list (Node * Closure)) :
  NoDup (pk <$> T) →
  (∀ n, join n = [] ∨ ∃ r, join n = [(n, r)]) →
  NoDup (pk <$> (T ≫= join).*1).
Proof.
  intros Hnd Hone.
  assert (∀ T' y, y ∈ pk <$> (T' ≫= join).*1 → y ∈ pk <$> T') as Hsub.
  { intros T' y (m & -> & ([m' r'] & -> & Hin)%list_elem_of_fmap)%list_elem_of_fmap.
    apply list_elem_of_bind in Hin as (m0 & Hin & Hm0).
    destruct (Hone m0) as [E|[r E]]; rewrite E in Hin.
    - by apply elem_of_nil in Hin.
    - apply list_elem_of_singleton in Hin as [= -> ->]. by apply list_elem_of_fmap_2. }
  induction T as [|n T IH]; [constructor|].
  rewrite fmap_cons in Hnd. apply NoDup_cons in Hnd as [Hn Hnd].
  rewrite bind_cons, !fmap_app.
  destruct (Hone n) as [->|[r ->]]; [by apply IH|].
  simpl. apply NoDup_cons. split; [|by apply IH].
  intros Hin. by apply Hn, Hsub.
Qed.

Lemma descendants_qs_depth_NoDup db self include_self d :
  NoDup (pk <$> nodes db) → unique_keys (triples db) →
  NoDup (pk <$> (descendants_qs db self include_self d).*1).
Proof.
  intros Hnd Hu.
  assert (NoDup (pk <$> (n ← nodes db; joined_rows (closure db) self d n).*1))
    as Hjoin.
  { apply join_NoDup; [done|]. intros n. unfold joined_rows.
    apply (join_at_most_one _ _ n (pk self, pk n)); [done|].
    intros r (? & ? & _). unfold sel_key, sel_parent, sel_child, triple. simpl.
    congruence. }
  unfold descendants_qs. destruct include_self; [done|].
  eapply sublist_NoDup; [exact Hjoin|].
  apply fmap_sublist, fmap_sublist, sublist_filter.
Qed.

Lemma ancestors_qs_NoDup db self include_self d :
  NoDup (pk <$> nodes db) → unique_keys (triples db) →
  NoDup (pk <$> (ancestors_qs db self include_self d).*1).
Proof.
  intros Hnd Hu.
  assert (NoDup (pk <$> (n ← nodes db; joined_parents (closure db) self d n).*1))
    as Hjoin.
  { apply join_NoDup; [done|]. intros n. unfold joined_parents.
    apply (join_at_most_one _ _ n (pk n, pk self)); [done|].
    intros r (? & ? & _). unfold sel_key, sel_parent, sel_child, triple. simpl.
    congruence. }
  unfold ancestors_qs. destruct include_self; [done|].
  eapply sublist_NoDup; [exact Hjoin|].
  apply fmap_sublist, fmap_sublist, sublist_filter.
Qed.

(** ** Sorted querysets *)

(** In a sorted list the key does not decrease with the position. *)
Lemma sorted_lookup {A : Type} (key : A → Z) (l : list A) (i j : nat) x y :
  StronglySorted (key_le key) l →
  l !! i = Some x → l !! j = Some y → (i < j)%nat → key x ≤ key y.
Proof.
  intros Hs. revert i j. induction Hs as [|a l Hs IH Hall]; intros i j Hi Hj Hlt.
  - by rewrite lookup_nil in Hi.
  - destruct j as [|j]; [lia|]. simpl in Hj.
    destruct i as [|i].
    + simpl in Hi. simplify_eq. rewrite Forall_forall in Hall.
      apply Hall. by eapply list_elem_of_lookup_2.
    + simpl in Hi. apply (IH i j); [done|done|lia].
Qed.

(** The first row of a sorted queryset has the least key. *)
Lemma order_by_head {A : Type} (key : A → Z) (l : list A) x rest y :
  order_by key l = x :: rest → y ∈ l → key x ≤ key y.
Proof.
  intros E Hy. pose proof (order_by_sorted key l) as Hs.
  rewrite <- (order_by_Permutation key l), E in Hy. rewrite E in Hs.
  apply StronglySorted_inv in Hs as [_ Hall].
  apply elem_of_cons in Hy as [->|Hy]; [lia|].
  rewrite Forall_forall in Hall. by apply Hall.
Qed.

Lemma order_by_nil {A : Type} (key : A → Z) (l : list A) :
  order_by key l = [] ↔ l = [].
Proof.
  split.
  - intros E. apply Permutation_nil_r. by rewrite <- E, order_by_Permutation.
  - intros ->. apply Permutation_nil_r. by rewrite order_by_Permutation.
Qed.

(** ** [get_descendants] on a consistent table *)

Lemma within_depth_ok d r (k : nat) :
  depth r = Z.of_nat k → depth_ok d r ↔ within d k.
Proof. intros E. unfold depth_ok, within. destruct d; [by rewrite E|done]. Qed.

Lemma elem_of_get_descendants db self include_self d n :
  consistent db →
  n ∈ get_descendants db self include_self d ↔
  n ∈ nodes db
  ∧ (include_self = true ∨ pk n ≠ pk self)
  ∧ ∃ k : nat, up (nodes db) k (pk n) = Some (pk self) ∧ within d k.
Proof.
  intros Hc. unfold get_descendants. rewrite order_by_Permutation. split.
  - intros ([n' r] & -> & Hin)%list_elem_of_fmap.
    apply elem_of_descendants_qs_depth in Hin as (Hn & Hr & Hch & Hp & Hd & Hi).
    destruct (consistent_row db r Hc Hr) as (_ & k & Hk & Hup).
    simpl. split_and!; [done|done|]. exists k. rewrite <- Hch, <- Hp.
    split; [done|by apply (within_depth_ok d r k)].
  - intros (Hn & Hi & k & Hup & Hd).
    destruct (consistent_row_of db k (pk n) (pk self) Hc) as (r & Hr & Hch & Hp & Hk);
      [by apply list_elem_of_fmap_2|done|].
    apply list_elem_of_fmap. exists (n, r). split; [done|].
    apply elem_of_descendants_qs_depth. split_and!; try done.
    by apply (within_depth_ok d r k).
Qed.

Lemma get_descendants_NoDup db self include_self d :
  consistent db → NoDup (pk <$> get_descendants db self include_self d).
Proof.
  intros (Hnd & _ & Hu & _). unfold get_descendants.
  rewrite order_by_Permutation. by apply descendants_qs_depth_NoDup.
Qed.

(** X7: on a consistent table [get_descendants] lists, each once, exactly
    the rows of the node table from which [self] is reached in some number
    [k] of steps up the parent pointers, [k] within [depth] when that is
    given; [self] itself only on [include_self]. *)
Theorem get_descendants_members db self include_self depth_lte :
  consistent db →
  NoDup (pk <$> get_descendants db self include_self depth_lte)
  ∧ ∀ n, n ∈ get_descendants db self include_self depth_lte ↔
         n ∈ nodes db
         ∧ (include_self = true ∨ pk n ≠ pk self)
         ∧ ∃ k : nat, up (nodes db) k (pk n) = Some (pk self)
                      ∧ within depth_lte k.
Proof.
  intros Hc. split; [by apply get_descendants_NoDup|].
  intros n. by apply elem_of_get_descendants.
Qed.

Lemma get_descendants_members_witness :
  {| pk := 3; parent_id := Some 2; level := 2 |}
  ∈ get_descendants example_db
      {| pk := 1; parent_id := None; level := 0 |} false (Some 2).
Proof.
  apply (get_descendants_members example_db
           {| pk := 1; parent_id := None; level := 0 |} false (Some 2));
    [compute_done|].
  split_and!; [compute_done|by right|].
  exists 2%nat. split; [reflexivity|]. unfold within. lia.
Defined.

(** X8: on a consistent table [get_descendants] lists nearer descendants
    before farther ones. *)
Theorem get_descendants_nearest_first db self include_self depth_lte
    (i j : nat) ni nj (ki kj : nat) :
  consistent db →
  get_descendants db self include_self depth_lte !! i = Some ni →
  get_descendants db self include_self depth_lte !! j = Some nj →
  (i < j)%nat →
  up (nodes db) ki (pk ni) = Some (pk self) →
  up (nodes db) kj (pk nj) = Some (pk self) →
  (ki ≤ kj)%nat.
Proof.
  intros Hc Hi Hj Hlt Hki Hkj. unfold get_descendants in Hi, Hj.
  rewrite list_lookup_fmap in Hi, Hj.
  destruct (order_by _ _ !! i) as [[ni' ri]|] eqn:Ei; [|done].
  destruct (order_by _ _ !! j) as [[nj' rj]|] eqn:Ej; [|done].
  simpl in Hi, Hj. simplify_eq.
  pose proof (sorted_lookup _ _ i j _ _ (order_by_sorted _ _) Ei Ej Hlt) as Hle.
  simpl in Hle.
  assert (∀ n r (k : nat), (n, r) ∈ descendants_qs db self include_self depth_lte →
            up (nodes db) k (pk n) = Some (pk self) → depth r = Z.of_nat k) as Hdist.
  { intros n r k Hin Hup.
    apply elem_of_descendants_qs_depth in Hin as (Hn & Hr & Hch & Hp & _).
    destruct (consistent_row db r Hc Hr) as (_ & k' & Hk' & Hup').
    rewrite Hch, Hp in Hup'.
    by rewrite (up_distance_unique _ _ _ _ _ (consistent_acyclic db Hc) Hup Hup'). }
  apply list_elem_of_lookup_2 in Ei, Ej.
  rewrite order_by_Permutation in Ei, Ej.
  rewrite (Hdist _ _ ki Ei Hki), (Hdist _ _ kj Ej Hkj) in Hle. lia.
Qed.

Lemma get_descendants_nearest_first_witness : (1 ≤ 2)%nat.
Proof.
  apply (get_descendants_nearest_first example_db
           {| pk := 1; parent_id := None; level := 0 |} false None 1 2
           {| pk := 2; parent_id := Some 1; level := 1 |}
           {| pk := 3; parent_id := Some 2; level := 2 |} 1 2);
    [compute_done|reflexivity|reflexivity|lia|reflexivity|reflexivity].
Defined.

(** ** [get_children] *)

(** X9: without a prepopulated list, on a consistent table, [get_children]
    lists exactly the rows whose parent key is the key of [self], provided
    that key is not [0] and is the key of a row; for the key [0] it lists
    nothing. *)
Theorem get_children_members db self n :
  consistent db →
  n ∈ get_children db self None ↔
  n ∈ nodes db ∧ parent_id n = Some (pk self) ∧ pk self ≠ 0
  ∧ pk self ∈ pk <$> nodes db.
Proof.
  intros Hc. pose proof Hc as (Hnd & _). unfold get_children.
  rewrite (elem_of_get_descendants db self false (Some 1) n Hc). split.
  - intros (Hn & [?|Hne] & k & Hup & Hk); [done|]. split; [done|].
    unfold within in Hk. destruct k as [|[|k]]; [simpl in Hup; congruence| |lia].
    simpl in Hup. destruct (parent_step _ _) as [p|] eqn:Ep; [|done].
    simpl in Hup. simplify_eq.
    apply parent_step_Some in Ep as (n' & Hl & Hp & Hp0 & Hpin).
    rewrite (lookup_node_elem_of _ n Hnd Hn) in Hl. by simplify_eq.
  - intros (Hn & Hp & Hp0 & Hpin).
    assert (parent_step (nodes db) (pk n) = Some (pk self)) as Hstep.
    { apply parent_step_Some. exists n. split; [|done].
      by apply lookup_node_elem_of. }
    split_and!; [done| |].
    + right. intros Heq. apply (consistent_acyclic db Hc (pk n) 0%nat). simpl.
      rewrite Hstep. simpl. by rewrite Heq.
    + exists 1%nat. simpl. rewrite Hstep. split; [done|]. unfold within. lia.
Qed.

Lemma get_children_members_witness :
  {| pk := 4; parent_id := Some 1; level := 1 |}
  ∈ get_children example_db {| pk := 1; parent_id := None; level := 0 |} None.
Proof.
  apply (get_children_members example_db); [compute_done|].
  split_and!; [compute_done|reflexivity|simpl; lia|compute_done].
Defined.

(** ** [get_ancestors] on a consistent table *)

Lemma is_root_node_true self : is_root_node self = true ↔ parent_id self = None.
Proof. unfold is_root_node, _closure_parent_pk. apply bool_decide_eq_true. Qed.

Lemma is_root_node_false self :
  is_root_node self = false ↔ parent_id self ≠ None.
Proof. unfold is_root_node, _closure_parent_pk. apply bool_decide_eq_false. Qed.

(** A row without parent key has no way up. *)
Lemma up_root T self (k : nat) a :
  NoDup (pk <$> T) → self ∈ T → parent_id self = None →
  up T k (pk self) = Some a → k = 0%nat ∧ a = pk self.
Proof.
  intros Hnd Hin Hp Hup. destruct k as [|k]; [simpl in Hup; by simplify_eq|].
  simpl in Hup. rewrite (parent_step_lookup T (pk self) self) in Hup
    by (by apply lookup_node_elem_of).
  by rewrite Hp in Hup.
Qed.

Lemma elem_of_get_ancestors db self include_self d a :
  consistent db → self ∈ nodes db → within d 0 →
  a ∈ get_ancestors db self include_self d ↔
  a ∈ nodes db
  ∧ (include_self = true ∨ pk a ≠ pk self)
  ∧ ∃ k : nat, up (nodes db) k (pk self) = Some (pk a) ∧ within d k.
Proof.
  intros Hc Hself Hd0. pose proof Hc as (Hnd & _). unfold get_ancestors.
  destruct (is_root_node self) eqn:Er.
  - apply is_root_node_true in Er. destruct include_self; simpl.
    + rewrite list_elem_of_filter. split.
      * intros [Hpk Ha]. split_and!; [done|by left|]. exists 0%nat. simpl.
        by rewrite Hpk.
      * intros (Ha & _ & k & Hup & _).
        by apply (up_root _ self k _ Hnd Hself Er) in Hup as [_ ->].
    + rewrite elem_of_nil. split; [done|].
      intros (Ha & [?|Hne] & k & Hup & _); [done|].
      by apply (up_root _ self k _ Hnd Hself Er) in Hup as [_ ?].
  - rewrite order_by_Permutation. split.
    + intros ([n' r] & -> & Hin)%list_elem_of_fmap.
      apply elem_of_ancestors_qs in Hin as (Hn & Hr & Hp & Hch & Hd & Hi).
      destruct (consistent_row db r Hc Hr) as (_ & k & Hk & Hup).
      simpl. split_and!; [done|done|]. exists k. rewrite <- Hch, <- Hp.
      split; [done|by apply (within_depth_ok d r k)].
    + intros (Hn & Hi & k & Hup & Hd).
      destruct (consistent_row_of db k (pk self) (pk a) Hc)
        as (r & Hr & Hch & Hp & Hk); [by apply list_elem_of_fmap_2|done|].
      apply list_elem_of_fmap. exists (a, r). split; [done|].
      apply elem_of_ancestors_qs. split_and!; try done.
      by apply (within_depth_ok d r k).
Qed.

Lemma get_ancestors_NoDup db self include_self d :
  consistent db → NoDup (pk <$> get_ancestors db self include_self d).
Proof.
  intros (Hnd & _ & Hu & _). unfold get_ancestors.
  destruct (is_root_node self).
  - destruct include_self; simpl; [|constructor].
    eapply sublist_NoDup; [exact Hnd|]. apply fmap_sublist, sublist_filter.
  - rewrite order_by_Permutation. by apply ancestors_qs_NoDup.
Qed.

(** X10: on a consistent table, for a row [self] of the node table and a
    [depth] that is not negative, [get_ancestors] lists, each once,
    exactly the rows reached from [self] in some number [k] of steps up
    the parent pointers, [k] within [depth] when that is given; [self]
    itself only on [include_self]. *)
Theorem get_ancestors_members db self include_self depth_lte :
  consistent db → self ∈ nodes db → within depth_lte 0 →
  NoDup (pk <$> get_ancestors db self include_self depth_lte)
  ∧ ∀ a, a ∈ get_ancestors db self include_self depth_lte ↔
         a ∈ nodes db
         ∧ (include_self = true ∨ pk a ≠ pk self)
         ∧ ∃ k : nat, up (nodes db) k (pk self) = Some (pk a)
                      ∧ within depth_lte k.
Proof.
  intros Hc Hself Hd. split; [by apply get_ancestors_NoDup|].
  intros a. by apply elem_of_get_ancestors.
Qed.

Lemma get_ancestors_members_witness :
  {| pk := 1; parent_id := None; level := 0 |}
  ∈ get_ancestors example_db
      {| pk := 3; parent_id := Some 2; level := 2 |} false None.
Proof.
  apply (get_ancestors_members example_db
           {| pk := 3; parent_id := Some 2; level := 2 |} false None);
    [compute_done|compute_done|done|].
  split_and!; [compute_done|by right|].
  exists 2%nat. split; [reflexivity|done].
Defined.

(** X11: on a consistent table [get_ancestors] lists farther ancestors
    before nearer ones: the topmost first, the parent last. *)
Theorem get_ancestors_farthest_first db self include_self depth_lte
    (i j : nat) ai aj (ki kj : nat) :
  consistent db →
  get_ancestors db self include_self depth_lte !! i = Some ai →
  get_ancestors db self include_self depth_lte !! j = Some aj →
  (i < j)%nat →
  up (nodes db) ki (pk self) = Some (pk ai) →
  up (nodes db) kj (pk self) = Some (pk aj) →
  (kj < ki)%nat.
Proof.
  intros Hc Hi Hj Hlt Hki Hkj. pose proof Hc as (Hnd & Hs & _).
  pose proof (get_ancestors_NoDup db self include_self depth_lte Hc) as Hnd'.
  assert (pk ai ≠ pk aj) as Hne.
  { intros Heq.
    assert (i = j); [|lia].
    apply (NoDup_lookup _ i j (pk ai) Hnd'); rewrite list_lookup_fmap.
    - by rewrite Hi.
    - by rewrite Hj, Heq. }
  assert (level ai ≤ level aj ∧ ai ∈ nodes db ∧ aj ∈ nodes db) as (Hle & Hai & Haj).
  { unfold get_ancestors in Hi, Hj. destruct (is_root_node self).
    - exfalso. destruct include_self; simpl in Hi, Hj;
        [|by rewrite lookup_nil in Hi].
      apply list_elem_of_lookup_2, list_elem_of_filter in Hi as [Hpi _].
      apply list_elem_of_lookup_2, list_elem_of_filter in Hj as [Hpj _].
      congruence.
    - rewrite list_lookup_fmap in Hi, Hj.
      destruct (order_by _ _ !! i) as [[ni' ri]|] eqn:Ei; [|done].
      destruct (order_by _ _ !! j) as [[nj' rj]|] eqn:Ej; [|done].
      simpl in Hi, Hj. simplify_eq.
      pose proof (sorted_lookup _ _ i j _ _ (order_by_sorted _ _) Ei Ej Hlt) as Hle.
      apply list_elem_of_lookup_2 in Ei, Ej.
      rewrite order_by_Permutation in Ei, Ej.
      apply elem_of_ancestors_qs in Ei as (? & _), Ej as (? & _). done. }
  destruct (decide (kj < ki)%nat) as [|Hge]; [done|]. exfalso.
  assert (ki ≠ kj) by (intros ->; congruence).
  assert (∃ m : nat, kj = (ki + S m)%nat) as [m ->] by (exists (kj - ki - 1)%nat; lia).
  rewrite up_add, Hki in Hkj. simpl in Hkj.
  pose proof (level_sound_up (nodes db) m (pk ai) (pk aj) ai aj Hs Hnd Hkj
                (lookup_node_elem_of _ ai Hnd Hai)
                (lookup_node_elem_of _ aj Hnd Haj)).
  lia.
Qed.

Lemma get_ancestors_farthest_first_witness : (1 < 2)%nat.
Proof.
  apply (get_ancestors_farthest_first example_db
           {| pk := 3; parent_id := Some 2; level := 2 |} false None 0 1
           {| pk := 1; parent_id := None; level := 0 |}
           {| pk := 2; parent_id := Some 1; level := 1 |} 2 1);
    [compute_done|reflexivity|reflexivity|lia|reflexivity|reflexivity].
Defined.

(** ** [get_root] *)

Lemma get_root_unfold db self :
  parent_id self ≠ None →
  get_root db self =
  match order_by (λ nr, - depth nr.2) (ancestors_qs db self false None) with
  | nr :: _ => inl nr.1
  | [] => inr IndexError
  end.
Proof. intros H. unfold get_root. by rewrite (proj2 (is_root_node_false self)). Qed.

(** Every proper ancestor is a row of the join. *)
Lemma ancestors_qs_up db self (k : nat) a :
  consistent db → pk self ∈ pk <$> nodes db →
  up (nodes db) (S k) (pk self) = Some a →
  ∃ m r, (m, r) ∈ ancestors_qs db self false None ∧ pk m = a
         ∧ depth r = Z.of_nat (S k).
Proof.
  intros Hc Hspk Hup.
  destruct (consistent_row_of db (S k) (pk self) a Hc Hspk Hup)
    as (r & Hr & Hch & Hpa & Hd).
  assert (a ∈ pk <$> nodes db) as (m & -> & Hm)%list_elem_of_fmap
    by (by eapply up_target_in).
  exists m, r. split_and!; [|done|done].
  apply elem_of_ancestors_qs. split_and!; try done. right.
  intros Heq. apply (consistent_acyclic db Hc (pk self) k). by rewrite Hup, Heq.
Qed.

(** Past the root test [get_root] finds the top of the chain. *)
Lemma get_root_chain db self p :
  consistent db → self ∈ nodes db →
  parent_id self = Some p → p ≠ 0 → p ∈ pk <$> nodes db →
  ∃ r (k : nat),
    get_root db self = inl r
    ∧ r ∈ nodes db
    ∧ up (nodes db) (S k) (pk self) = Some (pk r)
    ∧ parent_step (nodes db) (pk r) = None.
Proof.
  intros Hc Hself Hp Hp0 Hpin. pose proof Hc as (Hnd & _).
  pose proof (consistent_acyclic db Hc) as Hac.
  rewrite get_root_unfold by congruence.
  assert (parent_step (nodes db) (pk self) = Some p) as Hstep.
  { apply parent_step_Some. exists self. split; [|done].
    by apply lookup_node_elem_of. }
  assert (pk self ∈ pk <$> nodes db) as Hspk by (by apply list_elem_of_fmap_2).
  pose proof (λ k a, ancestors_qs_up db self k a Hc Hspk) as Hjoin.
  destruct (order_by _ _) as [|[r row] rest] eqn:E.
  - exfalso. apply order_by_nil in E.
    destruct (Hjoin 0%nat p) as (m & r & Hin & _); [simpl; by rewrite Hstep|].
    rewrite E in Hin. by apply elem_of_nil in Hin.
  - assert ((r, row) ∈ ancestors_qs db self false None) as Hin.
    { rewrite <- (order_by_Permutation (λ nr, - depth nr.2)), E.
      apply elem_of_cons. by left. }
    apply elem_of_ancestors_qs in Hin as (Hr & Hrow & Hpa & Hch & _ & [?|Hne]);
      [done|].
    destruct (consistent_row db row Hc Hrow) as (_ & k & Hk & Hup).
    rewrite Hch, Hpa in Hup.
    destruct k as [|k]; [simpl in Hup; congruence|].
    exists r, k. simpl. split_and!; [done|done|done|].
    destruct (parent_step (nodes db) (pk r)) as [q|] eqn:Eq; [exfalso|done].
    destruct (Hjoin (S k) q) as (m & r' & Hin & _ & Hd).
    { rewrite up_S_r, Hup. simpl. done. }
    pose proof (order_by_head _ _ _ _ _ E Hin) as Hle. simpl in Hle. lia.
Qed.

(** A parent key that leads nowhere leaves the join empty. *)
Lemma get_root_dangling db self p :
  consistent db → self ∈ nodes db →
  parent_id self = Some p → p = 0 ∨ p ∉ pk <$> nodes db →
  get_root db self = inr IndexError.
Proof.
  intros Hc Hself Ep Hbad. pose proof Hc as (Hnd & _).
  rewrite get_root_unfold by congruence.
  assert (ancestors_qs db self false None = []) as ->.
  { apply elem_of_nil_inv. intros [m r] Hin.
    apply elem_of_ancestors_qs in Hin as (Hm & Hr & Hpa & Hch & _ & [?|Hne]);
      [done|].
    destruct (consistent_row db r Hc Hr) as (_ & k & _ & Hup).
    rewrite Hch, Hpa in Hup.
    destruct k as [|k]; [simpl in Hup; congruence|].
    simpl in Hup.
    destruct (parent_step (nodes db) (pk self)) as [q|] eqn:Eq; [|done].
    apply parent_step_Some in Eq as (n' & Hl & Hq & Hq0 & Hqin).
    rewrite (lookup_node_elem_of _ self Hnd Hself) in Hl.
    simplify_eq. destruct Hbad; congruence. }
  by rewrite (proj2 (order_by_nil _ [])).
Qed.

(** X12: on a consistent table, for a row whose parent key is not [0] and
    is the key of a row, [get_root] returns the row at the top of the
    chain of parent pointers: an ancestor that has itself no parent in the
    table. *)
Theorem get_root_top db self p :
  consistent db → self ∈ nodes db →
  parent_id self = Some p → p ≠ 0 → p ∈ pk <$> nodes db →
  ∃ r (k : nat),
    get_root db self = inl r
    ∧ r ∈ nodes db
    ∧ up (nodes db) (S k) (pk self) = Some (pk r)
    ∧ parent_step (nodes db) (pk r) = None.
Proof. apply get_root_chain. Qed.

Lemma get_root_top_witness :
  ∃ r (k : nat),
    get_root example_db {| pk := 3; parent_id := Some 2; level := 2 |} = inl r
    ∧ r ∈ nodes example_db
    ∧ up (nodes example_db) (S k) 3 = Some (pk r)
    ∧ parent_step (nodes example_db) (pk r) = None.
Proof.
  apply (get_root_top example_db
           {| pk := 3; parent_id := Some 2; level := 2 |} 2);
    [compute_done|compute_done|reflexivity|lia|compute_done].
Defined.

(** X13: on a consistent table, for a row of the node table, [get_root]
    raises [IndexError] exactly when the row has a parent key that is [0]
    or the key of no row: [is_child_node] holds but no ancestor is
    stored. *)
Theorem get_root_IndexError db self :
  consistent db → self ∈ nodes db →
  get_root db self = inr IndexError ↔
  ∃ p, parent_id self = Some p ∧ (p = 0 ∨ p ∉ pk <$> nodes db).
Proof.
  intros Hc Hself.
  destruct (parent_id self) as [p|] eqn:Ep.
  - destruct (decide (p = 0 ∨ p ∉ pk <$> nodes db)) as [Hbad|Hok].
    + split; [by exists p|]. intros _. by apply (get_root_dangling db self p).
    + split; [|intros (p' & [= <-] & ?); done]. intros Hroot. exfalso.
      destruct (get_root_chain db self p) as (r & k & Hr & _); try done.
      * intros ->. apply Hok. by left.
      * apply dec_stable. intros ?. apply Hok. by right.
      * congruence.
  - unfold get_root. rewrite (proj2 (is_root_node_true self) Ep).
    split; [done|]. by intros (p & ? & _).
Qed.

Lemma get_root_IndexError_witness :
  get_root
    {| nodes := [{| pk := 0; parent_id := None; level := 0 |};
                 {| pk := 5; parent_id := Some 0; level := 0 |}];
       closure := [new_row 1 (0, 0, 0); new_row 2 (0, 5, 5)];
       closure_seq := 3 |}
    {| pk := 5; parent_id := Some 0; level := 0 |}
  = inr IndexError.
Proof.
  apply get_root_IndexError; [compute_done|compute_done|].
  exists 0. split; [reflexivity|by left].
Defined.

(** ** [is_descendant_of] against the queries *)

Lemma is_descendant_of_row db self other :
  is_descendant_of db self other false = true →
  pk other ≠ pk self
  ∧ ∃ r, r ∈ closure db ∧ parent r = pk other ∧ child r = pk self.
Proof.
  unfold is_descendant_of. case_decide as Hpk; [done|].
  intros (r & Hr & Hp & Hch & _)%bool_decide_eq_true%Exists_exists.
  split; [done|]. by exists r.
Qed.

(** X14: on a consistent table a positive answer of [is_descendant_of] is
    sound, [other] is reached from [self] in at least one step up the
    parent pointers, and [is_ancestor_of] then denies that [self] is an
    ancestor of [other]. *)
Theorem is_descendant_of_sound db self other :
  consistent db →
  is_descendant_of db self other false = true →
  (∃ k : nat, up (nodes db) (S k) (pk self) = Some (pk other))
  ∧ is_ancestor_of db self other false = false.
Proof.
  intros Hc (Hne & r & Hr & Hp & Hch)%is_descendant_of_row.
  unfold is_ancestor_of.
  destruct (consistent_row db r Hc Hr) as (_ & k & _ & Hup).
  rewrite Hp, Hch in Hup. destruct k as [|k]; [simpl in Hup; congruence|].
  split; [by exists k|].
  destruct (is_descendant_of db other self false) eqn:E; [exfalso|done].
  apply is_descendant_of_row in E as (_ & r' & Hr' & Hp' & Hch').
  destruct (consistent_row db r' Hc Hr') as (_ & k' & _ & Hup').
  rewrite Hp', Hch' in Hup'.
  apply (consistent_acyclic db Hc (pk self) (k + k')%nat).
  change (S (k + k')%nat) with (S k + k')%nat. rewrite up_add, Hup. done.
Qed.

Lemma is_descendant_of_sound_witness :
  (∃ k : nat, up (nodes example_db) (S k) 3 = Some 1)
  ∧ is_ancestor_of example_db
      {| pk := 3; parent_id := Some 2; level := 2 |}
      {| pk := 1; parent_id := None; level := 0 |} false = false.
Proof.
  apply (is_descendant_of_sound example_db
           {| pk := 3; parent_id := Some 2; level := 2 |}
           {| pk := 1; parent_id := None; level := 0 |});
    [compute_done|reflexivity].
Defined.

(** X15: whatever the tables hold, a node that [is_descendant_of] another
    is listed by [get_descendants] of that other when it is a row of the
    node table, and the other is listed by its [get_ancestors] when it is
    a row and the node [is_child_node]. *)
Theorem is_descendant_of_listed db self other :
  is_descendant_of db self other false = true →
  (self ∈ nodes db → self ∈ get_descendants db other false None)
  ∧ (other ∈ nodes db → is_child_node self = true →
     other ∈ get_ancestors db self false None).
Proof.
  intros (Hne & r & Hr & Hp & Hch)%is_descendant_of_row. split.
  - intros Hself. unfold get_descendants. rewrite order_by_Permutation.
    apply list_elem_of_fmap. exists (self, r). split; [done|].
    apply elem_of_descendants_qs_depth. split_and!; try done. by right.
  - intros Hother Hchild. unfold get_ancestors.
    unfold is_child_node in Hchild. apply negb_true_iff in Hchild.
    rewrite Hchild, order_by_Permutation.
    apply list_elem_of_fmap. exists (other, r). split; [done|].
    apply elem_of_ancestors_qs. split_and!; try done. by right.
Qed.

Lemma is_descendant_of_listed_witness :
  {| pk := 3; parent_id := Some 2; level := 2 |}
  ∈ get_descendants example_db
      {| pk := 1; parent_id := None; level := 0 |} false None.
Proof.
  apply (is_descendant_of_listed example_db
           {| pk := 3; parent_id := Some 2; level := 2 |}
           {| pk := 1; parent_id := None; level := 0 |});
    [reflexivity|compute_done].
Defined.

(** ** Saving a new node *)

Lemma get_node_lookup db p :
  get_node db p = match lookup_node (nodes db) p with
                  | Some n => Ok n
                  | None => Raise ObjectDoesNotExist
                  end.
Proof. unfold get_node, lookup_node. by destruct (filter _ _). Qed.

Lemma lookup_node_snoc_old T n x :
  x ∈ pk <$> T → lookup_node (T ++ [n]) x = lookup_node T x.
Proof.
  intros (m & -> & Hm)%list_elem_of_fmap. unfold lookup_node. rewrite filter_app.
  destruct (filter (λ n0, pk n0 = pk m) T) as [|m' l] eqn:E; [|done].
  exfalso. assert (m ∈ filter (λ n0, pk n0 = pk m) T) as Hin
    by (by apply list_elem_of_filter).
  rewrite E in Hin. by apply elem_of_nil in Hin.
Qed.

Lemma lookup_node_snoc_new T n :
  pk n ∉ pk <$> T → lookup_node (T ++ [n]) (pk n) = Some n.
Proof.
  intros Hn. unfold lookup_node. rewrite filter_app.
  rewrite (filter_none (λ n0, pk n0 = pk n) T).
  - simpl. rewrite filter_cons, decide_True by done. done.
  - intros m Hm Heq. apply Hn. rewrite <- Heq. by apply list_elem_of_fmap_2.
Qed.

(** A new row that nothing points to leaves the old rows their parents. *)
Lemma parent_step_snoc_old T n x :
  x ∈ pk <$> T →
  (∀ m, m ∈ T → parent_id m = Some (pk n) → pk n = 0) →
  parent_step (T ++ [n]) x = parent_step T x.
Proof.
  intros Hx Hfree. unfold parent_step. rewrite lookup_node_snoc_old by done.
  destruct (lookup_node T x) as [m|] eqn:Em; [|done]. simpl.
  destruct (parent_id m) as [p|] eqn:Ep; [|done]. simpl.
  apply lookup_node_Some in Em as [Hm _].
  destruct (decide (p = pk n)) as [->|Hne].
  - rewrite (Hfree m Hm Ep). done.
  - destruct (negb (p =? 0)); [|done]. simpl.
    rewrite fmap_app. simpl.
    destruct (decide (p ∈ pk <$> T)) as [Hin|Hout].
    + rewrite !bool_decide_eq_true_2; [done|done|]. apply elem_of_app. by left.
    + rewrite !bool_decide_eq_false_2; [done|done|].
      intros [?|?%list_elem_of_singleton]%elem_of_app; done.
Qed.

Lemma up_snoc_old T n (k : nat) x :
  x ∈ pk <$> T →
  (∀ m, m ∈ T → parent_id m = Some (pk n) → pk n = 0) →
  up (T ++ [n]) k x = up T k x.
Proof.
  intros Hx Hfree. revert x Hx. induction k as [|k IH]; intros x Hx; [done|].
  simpl. rewrite parent_step_snoc_old by done.
  destruct (parent_step T x) as [p|] eqn:Ep; [|done]. simpl. apply IH.
  by apply parent_step_in in Ep as [_ ?].
Qed.

(** What [pre_save] makes of a new instance. *)
Lemma set_level_new db n :
  (∀ p, parent_id n = Some p → p ≠ 0 → p ∈ pk <$> nodes db) →
  ∃ l, closure_model_set_level db (new_instance n)
       = Ok (new_instance {| pk := pk n; parent_id := parent_id n; level := l |})
     ∧ (∀ p, parent_id n = Some p → p ≠ 0 →
          ∃ m, lookup_node (nodes db) p = Some m ∧ l = level m + 1)
     ∧ ((parent_id n = None ∨ parent_id n = Some 0) → l = 0).
Proof.
  intros Hp. unfold closure_model_set_level, _closure_parent_pk, set_level,
    new_instance. simpl.
  destruct (parent_id n) as [p|] eqn:Ep; simpl.
  - destruct (decide (p = 0)) as [->|Hp0].
    + simpl. exists 0. split_and!; [done| |done]. intros ? [= <-] ?. done.
    + rewrite (proj2 (Z.eqb_neq p 0)) by done. simpl.
      unfold getattr_parent. simpl. rewrite Ep, get_node_lookup.
      destruct (lookup_node (nodes db) p) as [m|] eqn:Em.
      * simpl. exists (level m + 1). split_and!; [done| |].
        -- intros ? [= <-] _. by exists m.
        -- intros [?|[= ?]]; done.
      * exfalso. revert Em. apply not_eq_None_Some.
        unfold lookup_node. specialize (Hp p eq_refl Hp0).
        apply list_elem_of_fmap in Hp as (m & -> & Hm).
        destruct (filter (λ n0, pk n0 = pk m) (nodes db)) as [|m' l] eqn:E; [|by eexists].
        exfalso. assert (m ∈ filter (λ n0, pk n0 = pk m) (nodes db)) as Hin
          by (by apply list_elem_of_filter).
        rewrite E in Hin. by apply elem_of_nil in Hin.
  - exists 0. split_and!; [done| |done]. by intros.
Qed.

Lemma save_new_unfold vendor n db l :
  closure_model_set_level db (new_instance n)
  = Ok (new_instance {| pk := pk n; parent_id := parent_id n; level := l |}) →
  pk n ∉ pk <$> nodes db →
  save vendor (new_instance n) db =
  db' ← _closure_createlink vendor
          {| pk := pk n; parent_id := parent_id n; level := l |}
          {| nodes := nodes db ++ [{| pk := pk n; parent_id := parent_id n;
                                      level := l |}];
             closure := closure db; closure_seq := closure_seq db |};
  Ok (new_instance {| pk := pk n; parent_id := parent_id n; level := l |}, db').
Proof.
  intros Hpre Hnew. unfold save. rewrite Hpre. simpl.
  unfold write_row. simpl. rewrite decide_False by done.
  unfold closure_model_save. simpl. done.
Qed.

(** The core of the creation path. *)
Lemma save_new_exact vendor n db :
  consistent db →
  pk n ∉ pk <$> nodes db →
  (∀ m, m ∈ nodes db → parent_id m = Some (pk n) → pk n = 0) →
  (∀ p, parent_id n = Some p → p ≠ 0 → p ∈ pk <$> nodes db) →
  ∃ l db',
    save vendor (new_instance n) db
    = Ok (new_instance {| pk := pk n; parent_id := parent_id n; level := l |},
          db')
    ∧ nodes db' = nodes db ++ [{| pk := pk n; parent_id := parent_id n;
                                  level := l |}]
    ∧ (∀ p, parent_id n = Some p → p ≠ 0 →
         ∃ m, lookup_node (nodes db) p = Some m ∧ l = level m + 1)
    ∧ ((parent_id n = None ∨ parent_id n = Some 0) → l = 0)
    ∧ consistent db'.
Proof.
  intros Hc Hnew Hfree Hpar. pose proof Hc as (Hnd & Hs & Hu & _).
  destruct (set_level_new db n Hpar) as (l & Hpre & Hl & Hl0).
  rewrite (save_new_unfold vendor n db l Hpre Hnew).
  set (n' := {| pk := pk n; parent_id := parent_id n; level := l |}).
  set (T := nodes db ++ [n']).
  set (db1 := {| nodes := T; closure := closure db; closure_seq := closure_seq db |}).
  assert (NoDup (pk <$> T)) as HndT.
  { unfold T. rewrite fmap_app. apply NoDup_app. split_and!; [done| |].
    - intros x Hx ->%list_elem_of_singleton. done.
    - simpl. apply NoDup_singleton. }
  assert (level_sound T) as HsT.
  { unfold level_sound in *. rewrite Forall_forall in Hs. apply Forall_forall.
    intros a Ha. apply Forall_forall. intros b Hb Hab Hb0.
    apply elem_of_app in Ha as [Ha|Ha%list_elem_of_singleton];
      apply elem_of_app in Hb as [Hb|Hb%list_elem_of_singleton]; subst.
    - specialize (Hs a Ha). rewrite Forall_forall in Hs. by apply Hs.
    - simpl in *. by specialize (Hfree a Ha Hab).
    - simpl in *. destruct (Hl (pk b) Hab Hb0) as (m & Hm & ->).
      rewrite (lookup_node_elem_of _ b Hnd Hb) in Hm. simplify_eq. lia.
    - simpl in *. exfalso. apply Hnew. by apply Hpar. }
  assert (acyclic T) as HacT by (by apply level_sound_acyclic).
  destruct (createlink_exact vendor T (λ y, y ∈ pk <$> nodes db) db1 n')
    as (db' & Hrun & Hnodes & Hex).
  - destruct (consistent_exact db Hc) as [Hu' He]. split; [done|].
    intros d x a. change (triples db1) with (triples db). rewrite He.
    split; intros (Hx & k & Hk & Hup); (split; [done|]); exists k;
      (split; [done|]).
    + unfold T. by rewrite up_snoc_old.
    + unfold T in Hup. by rewrite up_snoc_old in Hup.
  - done.
  - intros y Hy. unfold T. rewrite fmap_app. apply elem_of_app. by left.
  - done.
  - exists n'. split; [|done]. unfold T. by apply (lookup_node_snoc_new _ n').
  - intros p Hp. apply parent_step_Some in Hp as (m & Hm & Hmp & Hp0 & _).
    unfold T in Hm. rewrite (lookup_node_snoc_new _ n') in Hm by done.
    simplify_eq. by apply Hpar.
  - rewrite Hrun. simpl. exists l, db'. split_and!; [done|done|done|done|].
    apply exact_consistent; rewrite Hnodes; [done|done|].
    eapply exact_on_iff; [|exact Hex]. intros y. simpl. unfold T.
    rewrite fmap_app, elem_of_app. simpl. rewrite list_elem_of_singleton. done.
Qed.

(** X16: saving a new instance on a consistent table, under a key that is
    not in use and that no row names as its parent, with a parent key that
    is null, [0] or the key of a row, succeeds on every backend: the row
    is appended with the level of its parent plus one ([0] without a
    parent), and the table is consistent again. *)
Theorem save_new_node_consistent vendor n db :
  consistent db →
  pk n ∉ pk <$> nodes db →
  (∀ m, m ∈ nodes db → parent_id m = Some (pk n) → pk n = 0) →
  (∀ p, parent_id n = Some p → p ≠ 0 → p ∈ pk <$> nodes db) →
  ∃ l db',
    save vendor (new_instance n) db
    = Ok (new_instance {| pk := pk n; parent_id := parent_id n; level := l |},
          db')
    ∧ nodes db' = nodes db ++ [{| pk := pk n; parent_id := parent_id n;
                                  level := l |}]
    ∧ (∀ m, m ∈ nodes db → parent_id n = Some (pk m) → pk m ≠ 0 →
         l = level m + 1)
    ∧ ((parent_id n = None ∨ parent_id n = Some 0) → l = 0)
    ∧ consistent db'.
Proof.
  intros Hc Hnew Hfree Hpar.
  destruct (save_new_exact vendor n db Hc Hnew Hfree Hpar)
    as (l & db' & Hrun & Hnodes & Hl & Hl0 & Hc').
  exists l, db'. split_and!; try done.
  intros m Hm Hp Hm0. destruct (Hl (pk m) Hp Hm0) as (m' & Hm' & ->).
  destruct Hc as (Hnd & _).
  rewrite (lookup_node_elem_of _ m Hnd Hm) in Hm'. by simplify_eq.
Qed.

Lemma save_new_node_consistent_witness :
  ∃ l db',
    save "oracle" (new_instance {| pk := 5; parent_id := Some 3; level := 0 |})
      example_db
    = Ok (new_instance {| pk := 5; parent_id := Some 3; level := l |}, db')
    ∧ l = 3
    ∧ consistent db'.
Proof.
  destruct (save_new_node_consistent "oracle"
              {| pk := 5; parent_id := Some 3; level := 0 |} example_db)
    as (l & db' & Hrun & _ & Hl & _ & Hc).
  - compute_done.
  - compute_done.
  - apply (proj1 (Forall_forall (λ m, parent_id m = Some 5 → 5 = 0)
                    (nodes example_db))). compute_done.
  - intros p [= <-] _. compute_done.
  - exists l, db'. split_and!; [done| |done].
    apply (Hl {| pk := 3; parent_id := Some 2; level := 2 |});
      [compute_done|done|done].
Defined.

(** ** Creating a whole tree *)

Lemma parent_row_snoc_old T n x :
  x ∈ pk <$> T →
  (∀ m, m ∈ T → parent_id m = Some (pk n) → pk n = 0) →
  parent_row (T ++ [n]) x = parent_row T x.
Proof.
  intros Hx Hfree. unfold parent_row. rewrite parent_step_snoc_old by done.
  destruct (parent_step T x) as [p|] eqn:Ep; [|done]. simpl.
  apply lookup_node_snoc_old. by apply parent_step_in in Ep as [_ ?].
Qed.

Lemma pointers_app T T' : pointers (T ++ T') = pointers T ++ pointers T'.
Proof. unfold pointers. apply fmap_app. Qed.

Lemma create_all_cons vendor n l db p :
  save vendor (new_instance n) db = Ok p →
  create_all vendor (n :: l) db = create_all vendor l p.2.
Proof. intros H. unfold create_all. simpl. by rewrite H. Qed.

Lemma create_all_exact vendor l :
  ∀ db,
    consistent db →
    (∀ m p, m ∈ nodes db → parent_id m = Some p → p ≠ 0 → p ∈ pk <$> nodes db) →
    levels_exact (nodes db) →
    NoDup (pk <$> (nodes db ++ l)) →
    parents_first (pk <$> nodes db) l →
    ∃ db', create_all vendor l db = Ok db'
           ∧ pointers (nodes db') = pointers (nodes db ++ l)
           ∧ consistent db'
           ∧ levels_exact (nodes db').
Proof.
  induction l as [|n l IH]; intros db Hc Hcl Hlev Hnd Hpf.
  - exists db. rewrite app_nil_r. done.
  - destruct Hpf as [Hp Hpf].
    assert (pk n ∉ pk <$> nodes db) as Hnew.
    { rewrite fmap_app in Hnd. apply NoDup_app in Hnd as (_ & Hdisj & _).
      intros Hin. apply (Hdisj _ Hin). rewrite fmap_cons. apply elem_of_cons. by left. }
    assert (∀ p, parent_id n = Some p → p ≠ 0 → p ∈ pk <$> nodes db) as Hpar.
    { intros p Ep Hp0. rewrite Ep in Hp. simpl in Hp. by destruct Hp. }
    assert (∀ m, m ∈ nodes db → parent_id m = Some (pk n) → pk n = 0) as Hfree.
    { intros m Hm Ep. destruct (decide (pk n = 0)) as [|Hn0]; [done|].
      exfalso. apply Hnew. by apply (Hcl m). }
    destruct (save_new_exact vendor n db Hc Hnew Hfree Hpar)
      as (l0 & db1 & Hrun & Hnodes & Hl & Hl0 & Hc1).
    rewrite (create_all_cons vendor n l db _ Hrun). simpl.
    set (n' := {| pk := pk n; parent_id := parent_id n; level := l0 |}) in *.
    destruct (IH db1) as (db' & Hrun' & Hptr & Hc' & Hlev').
    + done.
    + rewrite Hnodes. intros m p Hm Ep Hp0. rewrite fmap_app, elem_of_app.
      apply elem_of_app in Hm as [Hm|Hm%list_elem_of_singleton].
      * left. by apply (Hcl m).
      * subst m. left. by apply Hpar.
    + rewrite Hnodes. unfold levels_exact in *. apply Forall_app. split.
      * rewrite Forall_forall in Hlev. apply Forall_forall. intros m Hm.
        rewrite (parent_row_snoc_old _ n') by (by try apply list_elem_of_fmap_2).
        by apply Hlev.
      * apply Forall_singleton. simpl. unfold parent_row.
        rewrite (parent_step_lookup _ _ n') by (by apply (lookup_node_snoc_new _ n')).
        simpl. destruct (parent_id n) as [p|] eqn:Ep; simpl; [|by apply Hl0; left].
        destruct (decide (p = 0)) as [->|Hp0]; [by apply Hl0; right|].
        rewrite (proj2 (Z.eqb_neq p 0)) by done. simpl.
        specialize (Hpar p eq_refl Hp0).
        rewrite bool_decide_eq_true_2
          by (rewrite fmap_app; apply elem_of_app; by left).
        simpl. rewrite lookup_node_snoc_old by done.
        destruct (Hl p eq_refl Hp0) as (m & -> & ->). reflexivity.
    + rewrite Hnodes, <- app_assoc. simpl.
      rewrite fmap_app, fmap_cons in *. done.
    + rewrite Hnodes, fmap_app. done.
    + exists db'. split_and!; [done| |done|done].
      rewrite Hptr, Hnodes, <- app_assoc. unfold pointers.
      rewrite !fmap_app. done.
Qed.

(** X17: saving new instances one after the other into an empty database,
    in an order that puts every parent before its children, succeeds on
    every backend and leaves a consistent table with the rows and parent
    keys as given, in which every level is the level of the parent plus
    one, [0] for a row without parent in the table. *)
Theorem create_all_consistent vendor l :
  NoDup (pk <$> l) → parents_first [] l →
  ∃ db, create_all vendor l empty_db = Ok db
        ∧ pointers (nodes db) = pointers l
        ∧ consistent db
        ∧ levels_exact (nodes db).
Proof.
  intros Hnd Hpf. apply (create_all_exact vendor l empty_db); try done.
  - compute_done.
  - intros m p Hm. by apply elem_of_nil in Hm.
  - constructor.
Qed.

Lemma create_all_consistent_witness :
  ∃ db, create_all "mysql"
          [{| pk := 1; parent_id := None; level := 7 |};
           {| pk := 2; parent_id := Some 1; level := 7 |};
           {| pk := 3; parent_id := Some 2; level := 7 |}] empty_db = Ok db
        ∧ consistent db
        ∧ levels_exact (nodes db).
Proof.
  destruct (create_all_consistent "mysql"
              [{| pk := 1; parent_id := None; level := 7 |};
               {| pk := 2; parent_id := Some 1; level := 7 |};
               {| pk := 3; parent_id := Some 2; level := 7 |}])
    as (db & Hrun & _ & Hc & Hl); [compute_done|compute_done|].
  by exists db.
Defined.

(** ** Link creation undone by link deletion *)

Lemma filter_all {A : Type} (P : A → Prop) `{!∀ x, Decision (P x)} (l : list A) :
  (∀ x, x ∈ l → P x) → filter P l = l.
Proof.
  induction l as [|a l IH]; intros Hl; [done|].
  rewrite filter_cons, decide_True by (apply Hl, elem_of_cons; by left).
  f_equal. apply IH. intros x Hx. apply Hl, elem_of_cons. by right.
Qed.

(** X19: for a node that no closure row names as child,
    [_closure_createlink] followed by [_closure_deletelink] gives back the closure
    rows there were; the creation itself cannot fail on sqlite, mysql and
    postgresql. *)
Theorem createlink_deletelink_round_trip vendor self db :
  (∀ r, r ∈ closure db → child r ≠ pk self) →
  (dedup_vendor vendor → ∃ db', _closure_createlink vendor self db = Ok db')
  ∧ ∀ db', _closure_createlink vendor self db = Ok db' →
           closure (_closure_deletelink self db') = closure db
           ∧ nodes (_closure_deletelink self db') = nodes db.
Proof.
  intros Hnone. split; [apply createlink_dedup_total|].
  intros db' Hrun.
  apply createlink_Ok in Hrun as (Hn & added & Hc & _ & Hadded & _).
  split; [|done]. unfold _closure_deletelink. simpl. rewrite Hc, filter_app.
  rewrite (filter_all _ (closure db)) by done.
  rewrite (filter_none _ added); [by rewrite app_nil_r|].
  intros r Hr Hne. apply Hne. destruct (Hadded r Hr) as (Hin & _).
  by apply createlink_rows_child in Hin.
Qed.

Lemma createlink_deletelink_round_trip_witness :
  ∃ db', _closure_createlink "oracle"
           {| pk := 5; parent_id := Some 3; level := 3 |} example_db = Ok db'
         ∧ length (closure db') = 12%nat
         ∧ closure (_closure_deletelink
                      {| pk := 5; parent_id := Some 3; level := 3 |} db')
           = closure example_db.
Proof.
  eexists. split; [vm_compute; reflexivity|]. split; [reflexivity|].
  apply (createlink_deletelink_round_trip "oracle"
           {| pk := 5; parent_id := Some 3; level := 3 |} example_db).
  - apply Forall_forall. compute_done.
  - vm_compute. reflexivity.
Defined.

(** ** Deleting a leaf *)

Lemma lookup_node_filter_ne (T : list Node) s x :
  x ≠ s → lookup_node (filter (λ m, pk m ≠ s) T) x = lookup_node T x.
Proof.
  intros Hne. unfold lookup_node. f_equal.
  induction T as [|m T IH]; [done|].
  rewrite !filter_cons. destruct (decide (pk m = x)) as [Heq|Hneq].
  - rewrite decide_True by congruence. rewrite filter_cons, decide_True by done.
    by rewrite IH.
  - case_decide; [|done]. by rewrite filter_cons, decide_False.
Qed.

Lemma elem_of_pks_filter (T : list Node) s x :
  x ∈ pk <$> filter (λ m, pk m ≠ s) T ↔ x ∈ pk <$> T ∧ x ≠ s.
Proof.
  rewrite !list_elem_of_fmap. setoid_rewrite list_elem_of_filter. naive_solver.
Qed.

(** Without the row of a leaf the other rows keep their parents. *)
Lemma parent_step_filter_leaf T s x :
  (∀ m, m ∈ T → parent_id m = Some s → s = 0) →
  x ≠ s →
  parent_step (filter (λ m, pk m ≠ s) T) x = parent_step T x.
Proof.
  intros Hleaf Hne. unfold parent_step. rewrite lookup_node_filter_ne by done.
  destruct (lookup_node T x) as [m|] eqn:Em; [|done]. simpl.
  destruct (parent_id m) as [p|] eqn:Ep; [|done]. simpl.
  apply lookup_node_Some in Em as [Hm _].
  destruct (decide (p = s)) as [->|Hps].
  - by rewrite (Hleaf m Hm Ep).
  - destruct (negb (p =? 0)); [|done]. simpl.
    destruct (decide (p ∈ pk <$> T)) as [Hin|Hout].
    + rewrite !bool_decide_eq_true_2; [done|done|]. by apply elem_of_pks_filter.
    + rewrite !bool_decide_eq_false_2; [done|done|].
      by intros [? _]%elem_of_pks_filter.
Qed.

Lemma up_filter_leaf T s (k : nat) x :
  (∀ m, m ∈ T → parent_id m = Some s → s = 0) →
  x ≠ s →
  up (filter (λ m, pk m ≠ s) T) k x = up T k x.
Proof.
  intros Hleaf. revert x. induction k as [|k IH]; intros x Hne; [done|].
  simpl. rewrite parent_step_filter_leaf by done.
  destruct (parent_step T x) as [p|] eqn:Ep; [|done]. simpl. apply IH.
  apply parent_step_Some in Ep as (m & Hm & Hp & Hp0 & _).
  apply lookup_node_Some in Hm as [Hm _].
  intros ->. by apply Hp0, (Hleaf m).
Qed.

(** X20: on a consistent table, for a node that no row names as its
    parent, the [pre_delete] hook leaves the closure rows that belong to
    the node table without the row of that node: once the row is gone the
    table is consistent again. *)
Theorem closure_model_delete_leaf (instance : Instance) db :
  consistent db →
  (∀ m, m ∈ nodes db → parent_id m = Some (pk instance) → pk instance = 0) →
  consistent
    {| nodes := filter (λ m, pk m ≠ pk instance) (nodes db);
       closure := closure (closure_model_delete instance db);
       closure_seq := closure_seq (closure_model_delete instance db) |}.
Proof.
  intros Hc Hleaf. pose proof Hc as (Hnd & Hs & Hu & _).
  destruct (consistent_exact db Hc) as [_ He].
  apply exact_consistent; simpl.
  - eapply sublist_NoDup; [exact Hnd|]. apply fmap_sublist, sublist_filter.
  - unfold level_sound in *. rewrite Forall_forall in Hs. apply Forall_forall.
    intros a [_ Ha]%list_elem_of_filter. apply Forall_forall.
    intros b [_ Hb]%list_elem_of_filter. specialize (Hs a Ha).
    rewrite Forall_forall in Hs. by apply Hs.
  - split.
    + unfold unique_keys, triples. simpl. eapply sublist_NoDup; [exact Hu|].
      apply fmap_sublist, fmap_sublist, sublist_filter.
    + intros d x a. rewrite elem_of_pks_filter. unfold triples. simpl. split.
      * intros (r & Htr & [Hne Hr]%list_elem_of_filter)%list_elem_of_fmap.
        unfold triple in Htr. simplify_eq.
        destruct (consistent_row db r Hc Hr) as (Hin & k & Hk & Hup).
        split; [done|]. exists k. split; [done|]. by rewrite up_filter_leaf.
      * intros ([Hin Hne] & k & -> & Hup). rewrite up_filter_leaf in Hup by done.
        destruct (consistent_row_of db k x a Hc Hin Hup) as (r & Hr & <- & <- & Hd).
        apply list_elem_of_fmap. exists r. split; [by rewrite <- Hd|].
        by apply list_elem_of_filter.
Qed.

Lemma closure_model_delete_leaf_witness :
  consistent
    {| nodes := filter (λ m, pk m ≠ 3) (nodes example_db);
       closure :=
         closure (closure_model_delete
                    (new_instance {| pk := 3; parent_id := Some 2; level := 2 |})
                    example_db);
       closure_seq := 9 |}.
Proof.
  apply (closure_model_delete_leaf
           (new_instance {| pk := 3; parent_id := Some 2; level := 2 |})
           example_db); [compute_done|].
  apply (proj1 (Forall_forall (λ m, parent_id m = Some 3 → 3 = 0)
                  (nodes example_db))). compute_done.
Defined.

(** ** Reading the parent key back *)

Section tracker_parent_pk.
Import Tracker.

Lemma append_id_ne_self (s : string) : s +:+ "_id" ≠ s.
Proof. induction s as [|a s IH]; [done|]. simpl. intros [= ?]. done. Qed.

Lemma setattr_data_lookup meta db (self self' : obj) name v :
  setattr_data meta db self name v = Ok self' → self' !! name = Some v.
Proof.
  unfold setattr_data. destruct (capture_on_change _ _ _ _ _); [|done].
  simpl. intros [= <-]. apply lookup_insert_eq.
Qed.

(** X21: after an assignment through [__setattr__], [_closure_parent_pk]
    reads what was assigned: the key of the object (or [None]) after an
    assignment to the parent attribute, the value itself after an
    assignment to its [_id] attribute. *)
Theorem setattr_then_parent_pk meta db (self self' : obj) name v :
  __setattr__ meta db self name v = Ok self' →
  (name = _closure_parent_attr meta →
   _closure_parent_pk meta self' = related_key v)
  ∧ (name = _closure_parent_attr meta +:+ "_id" →
     _closure_parent_pk meta self' = Ok v).
Proof.
  unfold __setattr__. intros Hset.
  destruct (capture_on_change meta db self name v) as [self1|] eqn:E1; [|done].
  simpl in Hset. split.
  - intros ->. rewrite decide_True in Hset by done.
    destruct (related_key v) as [key|] eqn:Ek; [|done]. simpl in Hset.
    apply setattr_data_lookup in Hset. unfold _closure_parent_pk.
    by rewrite Hset.
  - intros ->. rewrite decide_False in Hset by apply append_id_ne_self.
    injection Hset as <-. unfold _closure_parent_pk.
    by rewrite lookup_insert_eq.
Qed.

Lemma setattr_then_parent_pk_witness :
  (self' ← __setattr__ default_meta empty_db
             (<["id" := VInt 2]>
                (<["parent_id" := VNone]> (<["level" := VInt 0]> ∅)))
             "parent" (VObj (Some 7) 0);
   _closure_parent_pk default_meta self') = Ok (VInt 7).
Proof.
  destruct (__setattr__ _ _ _ _ _) as [self'|e] eqn:E;
    [|vm_compute in E; discriminate E].
  simpl.
  by rewrite (proj1 (setattr_then_parent_pk _ _ _ _ _ _ E) eq_refl).
Defined.

End tracker_parent_pk.

(** ** [prepopulate] on the descendants *)

Section prepopulate_descendants.
Import Prepopulate.

(** The parent of a listed descendant is the node or is listed too. *)
Lemma get_descendants_parent db self d n :
  consistent db →
  n ∈ get_descendants db self false d →
  parent_id n = Some (pk self)
  ∨ ∃ m, m ∈ get_descendants db self false d ∧ parent_id n = Some (pk m).
Proof.
  intros Hc Hin. pose proof Hc as (Hnd & _).
  apply (elem_of_get_descendants db self false d n Hc)
    in Hin as (Hn & [?|Hne] & k & Hup & Hk); [done|].
  destruct k as [|k]; [simpl in Hup; congruence|].
  simpl in Hup. destruct (parent_step (nodes db) (pk n)) as [p|] eqn:Ep; [|done].
  simpl in Hup.
  pose proof Ep as (n' & Hl & Hp & Hp0 & Hpin)%parent_step_Some.
  rewrite (lookup_node_elem_of _ n Hnd Hn) in Hl. simplify_eq.
  destruct k as [|k]; [simpl in Hup; left; congruence|]. right.
  apply list_elem_of_fmap in Hpin as (m & -> & Hm). exists m. split; [|done].
  apply (elem_of_get_descendants db self false d m Hc). split_and!; [done| |].
  - right. intros Heq. apply (consistent_acyclic db Hc (pk m) k). by rewrite Hup, Heq.
  - exists (S k). split; [done|]. unfold within in *. destruct d; [lia|done].
Qed.

(** X22: on a consistent table [prepopulate] accepts what
    [get_descendants] of the same node returns, with or without a
    [depth]: the parent key of every listed descendant is a key of the
    dictionary, so no [assert] fails. *)
Theorem prepopulate_get_descendants db self depth_lte :
  consistent db →
  let objs := as_obj <$> get_descendants db self false depth_lte in
  (∀ d, d ∈ objs → is_Some (hashobjs (as_obj self) objs !! obj_parent_pk d))
  ∧ ∃ heap, prepopulate (as_obj self) objs = Ok heap.
Proof.
  intros Hc objs.
  assert (∀ d, d ∈ objs →
            is_Some (hashobjs (as_obj self) objs !! obj_parent_pk d)) as Hknown.
  { intros d (n & -> & Hn)%list_elem_of_fmap. apply hashobjs_keys. simpl.
    destruct (get_descendants_parent db self depth_lte n Hc Hn)
      as [->|(m & Hm & ->)]; [apply elem_of_cons; by left|].
    apply elem_of_cons. right. unfold objs. rewrite <- list_fmap_compose.
    apply list_elem_of_fmap. by exists m. }
  split; [done|].
  pose proof (append_loop (as_obj self) objs (refs objs) []
                (reset_children (as_obj self) objs)
                (reset_children_lookup (as_obj self) objs)) as Hloop.
  assert (∀ i, i ∈ refs objs → is_Some ((as_obj self :: objs) !! i)) as Hdom.
  { intros i Hi. destruct (refs_lookup (as_obj self) objs i Hi) as (d & Hd & _).
    by eexists. }
  specialize (Hloop Hdom). rewrite decide_True in Hloop.
  - destruct Hloop as (heap & Hrun & _). by exists heap.
  - apply Forall_forall. intros i Hi.
    destruct (refs_lookup (as_obj self) objs i Hi) as (d & Hd & Hin).
    rewrite Hd. by apply Hknown.
Qed.

Lemma prepopulate_get_descendants_witness :
  ∃ heap,
    prepopulate (as_obj {| pk := 1; parent_id := None; level := 0 |})
      (as_obj <$> get_descendants example_db
                    {| pk := 1; parent_id := None; level := 0 |} false None)
    = Ok heap.
Proof.
  apply (prepopulate_get_descendants example_db
           {| pk := 1; parent_id := None; level := 0 |} None).
  compute_done.
Defined.

End prepopulate_descendants.

(** ** One root for a whole tree *)

(** The chain of parent pointers has one top. *)
Lemma top_unique T (j k : nat) x a b :
  up T j x = Some a → parent_step T a = None →
  up T k x = Some b → parent_step T b = None → a = b.
Proof.
  revert k x. induction j as [|j IH]; intros k x Ha Hta Hb Htb.
  - simpl in Ha. simplify_eq. destruct k as [|k]; [simpl in Hb; by simplify_eq|].
    simpl in Hb. by rewrite Hta in Hb.
  - simpl in Ha. destruct (parent_step T x) as [p|] eqn:Ep; [|done].
    simpl in Ha. destruct k as [|k].
    + simpl in Hb. simplify_eq.
    + simpl in Hb. rewrite Ep in Hb. simpl in Hb. by apply (IH k p).
Qed.

Lemma node_eq_of_pk T a b :
  NoDup (pk <$> T) → a ∈ T → b ∈ T → pk a = pk b → a = b.
Proof.
  intros Hnd Ha Hb Heq.
  pose proof (lookup_node_elem_of T a Hnd Ha) as H1.
  pose proof (lookup_node_elem_of T b Hnd Hb) as H2.
  rewrite Heq, H2 in H1. by simplify_eq.
Qed.

(** X25: on a consistent table a row and the row of its parent have the
    same root: whenever [get_root] of the parent returns a row, [get_root]
    of the child returns that row. *)
Theorem get_root_of_parent db self mp r :
  consistent db → self ∈ nodes db → mp ∈ nodes db →
  parent_id self = Some (pk mp) → pk mp ≠ 0 →
  get_root db mp = inl r →
  get_root db self = inl r.
Proof.
  intros Hc Hself Hmp Hp Hp0 Hroot. pose proof Hc as (Hnd & _).
  destruct (get_root_chain db self (pk mp) Hc Hself Hp Hp0)
    as (r' & k & Hr' & Hr'in & Hup' & Htop'); [by apply list_elem_of_fmap_2|].
  rewrite Hr'. f_equal.
  assert (parent_step (nodes db) (pk self) = Some (pk mp)) as Hstep.
  { apply parent_step_Some. exists self. split_and!; try done.
    - by apply lookup_node_elem_of.
    - by apply list_elem_of_fmap_2. }
  simpl in Hup'. rewrite Hstep in Hup'. simpl in Hup'.
  destruct (parent_id mp) as [p'|] eqn:Ep'.
  - destruct (decide (p' = 0 ∨ p' ∉ pk <$> nodes db)) as [Hbad|Hok].
    + rewrite (get_root_dangling db mp p' Hc Hmp Ep' Hbad) in Hroot. done.
    + destruct (get_root_chain db mp p' Hc Hmp Ep')
        as (r2 & k2 & Hr2 & Hr2in & Hup2 & Htop2).
      * intros ->. apply Hok. by left.
      * apply dec_stable. intros ?. apply Hok. by right.
      * assert (r2 = r) as -> by congruence.
        apply (node_eq_of_pk (nodes db)); [done|done|done|].
        by apply (top_unique (nodes db) k (S k2) (pk mp)).
  - unfold get_root in Hroot. rewrite (proj2 (is_root_node_true mp) Ep') in Hroot.
    injection Hroot as <-.
    apply (node_eq_of_pk (nodes db)); [done|done|done|].
    apply (top_unique (nodes db) k 0 (pk mp)); [done|done|done|].
    rewrite (parent_step_lookup _ _ mp) by (by apply lookup_node_elem_of).
    by rewrite Ep'.
Qed.

Lemma get_root_of_parent_witness :
  get_root example_db {| pk := 3; parent_id := Some 2; level := 2 |}
  = inl {| pk := 1; parent_id := None; level := 0 |}.
Proof.
  apply (get_root_of_parent example_db
           {| pk := 3; parent_id := Some 2; level := 2 |}
           {| pk := 2; parent_id := Some 1; level := 1 |});
    [compute_done|compute_done|compute_done|reflexivity|done|reflexivity].
Defined.

(** ** The level counts the ancestors *)

Lemma get_ancestors_of_parent db n mp :
  consistent db → n ∈ nodes db → mp ∈ nodes db →
  parent_step (nodes db) (pk n) = Some (pk mp) →
  pk <$> get_ancestors db n false None
  ≡ₚ pk mp :: (pk <$> get_ancestors db mp false None).
Proof.
  intros Hc Hn Hmp Hstep. pose proof Hc as (Hnd & _).
  pose proof (consistent_acyclic db Hc) as Hac.
  pose proof (λ a, elem_of_get_ancestors db n false None a Hc Hn I) as Hin_n.
  pose proof (λ a, elem_of_get_ancestors db mp false None a Hc Hmp I) as Hin_p.
  apply NoDup_Permutation.
  - by apply get_ancestors_NoDup.
  - apply NoDup_cons. split; [|by apply get_ancestors_NoDup].
    intros (a & Heq & (_ & [?|Hne] & _)%Hin_p)%list_elem_of_fmap; [done|].
    congruence.
  - intros x. rewrite elem_of_cons, !list_elem_of_fmap. split.
    + intros (a & -> & (Ha & [?|Hne] & k & Hup & _)%Hin_n); [done|].
      destruct k as [|k]; [simpl in Hup; congruence|].
      simpl in Hup. rewrite Hstep in Hup. simpl in Hup.
      destruct k as [|k]; [simpl in Hup; left; congruence|]. right.
      exists a. split; [done|]. apply Hin_p. split_and!; [done| |by exists (S k)].
      right. intros Heq. apply (Hac (pk mp) k). by rewrite Hup, Heq.
    + intros [->|(a & -> & (Ha & [?|Hne] & k & Hup & _)%Hin_p)]; [|done|].
      * exists mp. split; [done|]. apply Hin_n. split_and!; [done| |].
        -- right. intros Heq. apply (Hac (pk n) 0%nat). simpl.
           rewrite Hstep. simpl. by rewrite Heq.
        -- exists 1%nat. simpl. by rewrite Hstep.
      * exists a. split; [done|]. apply Hin_n. split_and!; [done| |].
        -- right. intros Heq. apply (Hac (pk n) k). simpl.
           rewrite Hstep. simpl. by rewrite Hup, Heq.
        -- exists (S k). simpl. by rewrite Hstep.
Qed.

Lemma level_counts_ancestors_aux db (L : nat) :
  consistent db → levels_exact (nodes db) →
  ∀ n, n ∈ nodes db →
       length (get_ancestors db n false None) = L → level n = Z.of_nat L.
Proof.
  intros Hc Hlev. pose proof Hc as (Hnd & _).
  unfold levels_exact in Hlev. rewrite Forall_forall in Hlev.
  induction L as [|L IH]; intros n Hn Hlen.
  - rewrite (Hlev n Hn). unfold parent_row.
    destruct (parent_step (nodes db) (pk n)) as [p|] eqn:Ep; [exfalso|done].
    destruct (parent_step_in _ _ _ Ep) as [_ Hpin].
    apply list_elem_of_fmap in Hpin as (mp & -> & Hmp).
    pose proof (get_ancestors_of_parent db n mp Hc Hn Hmp Ep) as Hperm.
    apply Permutation_length in Hperm. rewrite length_fmap, Hlen in Hperm.
    simpl in Hperm. lia.
  - rewrite (Hlev n Hn). unfold parent_row.
    destruct (parent_step (nodes db) (pk n)) as [p|] eqn:Ep.
    + destruct (parent_step_in _ _ _ Ep) as [_ Hpin].
      apply list_elem_of_fmap in Hpin as (mp & -> & Hmp).
      pose proof (get_ancestors_of_parent db n mp Hc Hn Hmp Ep) as Hperm.
      apply Permutation_length in Hperm. rewrite length_fmap, Hlen in Hperm.
      simpl in Hperm. rewrite length_fmap in Hperm.
      simpl. rewrite (lookup_node_elem_of _ mp Hnd Hmp). simpl.
      rewrite (IH mp Hmp) by lia. lia.
    + exfalso. destruct (get_ancestors db n false None) as [|a l] eqn:E; [done|].
      assert (a ∈ get_ancestors db n false None) as Ha
        by (rewrite E; apply elem_of_cons; by left).
      apply (elem_of_get_ancestors db n false None a Hc Hn I)
        in Ha as (_ & [?|Hne] & k & Hup & _); [done|].
      destruct k as [|k]; [simpl in Hup; congruence|].
      simpl in Hup. by rewrite Ep in Hup.
Qed.

(** X26: on a consistent table whose levels are exact, the level of a row
    is the number of rows [get_ancestors] lists for it. *)
Theorem level_counts_ancestors db self :
  consistent db → levels_exact (nodes db) → self ∈ nodes db →
  level self = Z.of_nat (length (get_ancestors db self false None)).
Proof.
  intros Hc Hlev Hself.
  by apply (level_counts_ancestors_aux db _ Hc Hlev self Hself).
Qed.

Lemma level_counts_ancestors_witness :
  level {| pk := 3; parent_id := Some 2; level := 2 |}
  = Z.of_nat (length (get_ancestors example_db
                        {| pk := 3; parent_id := Some 2; level := 2 |}
                        false None)).
Proof.
  apply (level_counts_ancestors example_db
           {| pk := 3; parent_id := Some 2; level := 2 |}); compute_done.
Defined.
